(** * distributable_counter.h: a write-optimised counter sharded over brokers

    Shallow embedding of [include/distributable_counter.h]:
    [distributable_counter<Integral>], [counter_broker<Integral>] and
    [tls_distributed_counter<Integral, Tag>].

    [Integral] is an unsigned integer type of [w] bits, carried as a [Z] with
    the wrap-around of every arithmetic operation written out ([wrap]).  The
    member functions are monadic programs over the counter object: they read
    and write the atomic cells, take and release [mutex_], walk and relink
    the intrusive list [brokers_].  A call that cannot complete yields a
    [fault] in place of a result. *)

From Stdlib Require Import ZArith List Bool Lia PeanoNat Permutation.
Import ListNotations.
Open Scope Z_scope.

(** ** Outcomes of a call *)

Inductive fault : Type :=
| AssertionFailed   (* assert(...) evaluated to false: abort() *)
| WouldBlock        (* std::mutex::lock() on a mutex that is already held *)
| NoSuchBroker      (* a member of counter_broker used on a dead object *)
| MissingReturn.    (* control flows off the end of a value-returning function *)

Inductive res (St A : Type) : Type :=
| Ok (a : A) (s : St)
| Fault (f : fault).

Arguments Ok {St A} a s.
Arguments Fault {St A} f.

Definition M (St A : Type) : Type := St -> res St A.

Definition ret {St A : Type} (a : A) : M St A := fun s => Ok a s.

Definition bind {St A B : Type} (m : M St A) (k : A -> M St B) : M St B :=
  fun s => match m s with
           | Ok a s' => k a s'
           | Fault f => Fault f
           end.

Definition raise {St A : Type} (f : fault) : M St A := fun _ => Fault f.

Declare Scope cxx_scope.
Delimit Scope cxx_scope with cxx.
Notation "x <- m ;; k" := (bind m (fun x => k))
  (at level 61, m at next level, right associativity) : cxx_scope.
Notation "m ;; k" := (bind m (fun _ => k))
  (at level 61, right associativity) : cxx_scope.
Open Scope cxx_scope.

(** ** Objects *)

(** A broker object is identified by its address [this]. *)
Definition addr : Type := nat.

(** [counter_broker<Integral>]: the list hooks of [ilist_node<>] are the
    position of the record in [brokers_]; the reference member [counter_]
    is the one counter object the program is run on. *)
Record counter_broker : Type := mk_broker {
  this : addr;
  value_ : Z            (* std::atomic<Integral> value_{0} *)
}.

(** [distributable_counter<Integral>]. *)
Record distributable_counter : Type := mk_counter {
  counter_ : Z;                     (* std::atomic<Integral> counter_ *)
  brokers_ : list counter_broker;   (* ilist<counter_broker<Integral>> *)
  mutex_ : bool                     (* std::mutex, true when held *)
}.

(** [tls_distributed_counter<Integral, Tag>]. *)
Record tls_distributed_counter : Type := mk_tls {
  global_ : distributable_counter
}.

Definition set_counter_ (c : Z) (s : distributable_counter) :=
  mk_counter c (brokers_ s) (mutex_ s).
Definition set_brokers_ (bs : list counter_broker) (s : distributable_counter) :=
  mk_counter (counter_ s) bs (mutex_ s).
Definition set_mutex_ (m : bool) (s : distributable_counter) :=
  mk_counter (counter_ s) (brokers_ s) m.

(** ** The registry substrate [ilist] *)

Module ilist.

(** Modelled from the spec: [ilist.h] is not part of the sources; section 6
    gives its contract: register a node (O(1) insertion, here at the back
    as [push_back] says), unregister a node given its identity, forward
    iteration over the registered nodes, and the emptiness test. *)
Definition push_back (b : counter_broker) (l : list counter_broker) :=
  l ++ [b].

(** Modelled from the spec: unregister the node whose identity is [a]. *)
Fixpoint remove (a : addr) (l : list counter_broker) : list counter_broker :=
  match l with
  | [] => []
  | b :: l' => if Nat.eqb (this b) a then l' else b :: remove a l'
  end.

(** Modelled from the spec: no node is registered. *)
Definition empty (l : list counter_broker) : bool :=
  match l with [] => true | _ :: _ => false end.

(** The node at address [a], if it is linked. *)
Fixpoint find (a : addr) (l : list counter_broker) : option counter_broker :=
  match l with
  | [] => None
  | b :: l' => if Nat.eqb (this b) a then Some b else find a l'
  end.

(** Overwrite the [value_] cell of the node at address [a]. *)
Fixpoint update (a : addr) (v : Z) (l : list counter_broker)
  : list counter_broker :=
  match l with
  | [] => []
  | b :: l' =>
      if Nat.eqb (this b) a then mk_broker (this b) v :: l'
      else b :: update a v l'
  end.

End ilist.

Section Counter.

(** Width in bits of [Integral]. *)
Variable w : nat.

(** [NDEBUG] of [<cassert>]: when defined, [assert] expands to nothing. *)
Variable NDEBUG : bool.

Definition modulus : Z := 2 ^ Z.of_nat w.

(** Conversion of a mathematical result to [Integral]. *)
Definition wrap (x : Z) : Z := x mod modulus.

Definition in_range (x : Z) : Prop := 0 <= x < modulus.

Definition Cnt (A : Type) : Type := M distributable_counter A.

(** *** [assert] and [std::mutex] *)

Definition assert_ (c : bool) : Cnt unit :=
  if NDEBUG then ret tt
  else if c then ret tt else raise AssertionFailed.

Definition lock : Cnt unit :=
  fun s => if mutex_ s then Fault WouldBlock else Ok tt (set_mutex_ true s).

Definition unlock : Cnt unit :=
  fun s => Ok tt (set_mutex_ false s).

(** [{ std::lock_guard<std::mutex> _(mutex_); body }] *)
Definition lock_guard {A : Type} (body : Cnt A) : Cnt A :=
  lock ;; r <- body ;; unlock ;; ret r.

(** *** [std::atomic<Integral>] operations on [counter_] *)

Definition counter_fetch_add (amount : Z) : Cnt Z :=
  fun s => Ok (counter_ s) (set_counter_ (wrap (counter_ s + amount)) s).

Definition counter_fetch_sub (amount : Z) : Cnt Z :=
  fun s => Ok (counter_ s) (set_counter_ (wrap (counter_ s - amount)) s).

Definition counter_atomic_load : Cnt Z :=
  fun s => Ok (counter_ s) s.

Definition counter_atomic_exchange (to : Z) : Cnt Z :=
  fun s => Ok (counter_ s) (set_counter_ to s).

(** *** [std::atomic<Integral>] operations on the [value_] of a broker *)

Definition value_load (a : addr) : Cnt Z :=
  fun s => match ilist.find a (brokers_ s) with
           | Some b => Ok (value_ b) s
           | None => Fault NoSuchBroker
           end.

Definition value_store (a : addr) (v : Z) : Cnt unit :=
  fun s => match ilist.find a (brokers_ s) with
           | Some _ => Ok tt (set_brokers_ (ilist.update a v (brokers_ s)) s)
           | None => Fault NoSuchBroker
           end.

(** *** [distributable_counter] *)

(** [explicit constexpr distributable_counter(Integral initial= 0)] *)
Definition distributable_counter_ctor (initial : Z) : distributable_counter :=
  mk_counter initial [] false.

(** [~distributable_counter() { assert(brokers_.empty()); }] *)
Definition distributable_counter_dtor : Cnt unit :=
  fun s => assert_ (ilist.empty (brokers_ s)) s.

(** [void operator+=(Integral amount)] *)
Definition counter_add (amount : Z) : Cnt unit :=
  counter_fetch_add amount ;; ret tt.

(** [void operator-=(Integral amount)] *)
Definition counter_sub (amount : Z) : Cnt unit :=
  counter_fetch_sub amount ;; ret tt.

(** [operator++] and [operator--], prefix and postfix alike. *)
Definition counter_inc : Cnt unit := counter_add 1.
Definition counter_dec : Cnt unit := counter_sub 1.

(** The loop of [load]:
    [for (const auto &broker : brokers_) accumulator+= broker.value_.load();] *)
Fixpoint load_loop (l : list counter_broker) (accumulator : Z) : Z :=
  match l with
  | [] => accumulator
  | broker :: l' => load_loop l' (wrap (accumulator + value_ broker))
  end.

(** [Integral distributable_counter<Integral>::load()] *)
Definition load : Cnt Z :=
  accumulator <- lock_guard (fun s => Ok (load_loop (brokers_ s) 0) s) ;;
  c <- counter_atomic_load ;;
  ret (wrap (accumulator + c)).

(** The loop of [exchange]:
    [for (auto &broker : brokers_) old_value+= broker.value_.exchange(0);]
    returns the accumulator and the nodes as the loop leaves them. *)
Fixpoint exchange_loop (l : list counter_broker) (old_value : Z)
  : Z * list counter_broker :=
  match l with
  | [] => (old_value, [])
  | broker :: l' =>
      let (r, l'') := exchange_loop l' (wrap (old_value + value_ broker)) in
      (r, mk_broker (this broker) 0 :: l'')
  end.

(** [Integral distributable_counter<Integral>::exchange(Integral to)] *)
Definition exchange (to : Z) : Cnt Z :=
  old_value <- lock_guard (fun s =>
                 let (r, l) := exchange_loop (brokers_ s) 0 in
                 Ok r (set_brokers_ l s)) ;;
  c <- counter_atomic_exchange to ;;
  ret (wrap (old_value + c)).

(** *** [counter_broker] *)

(** [counter_broker(distributable_counter<Integral> &counter)], for the
    object placed at address [a]. *)
Definition counter_broker_ctor (a : addr) : Cnt unit :=
  lock_guard (fun s =>
    Ok tt (set_brokers_ (ilist.push_back (mk_broker a 0) (brokers_ s)) s)).

(** First statement of [~counter_broker()]:
    [counter_+= value_.load(std::memory_order_relaxed);] *)
Definition counter_broker_dtor_flush (a : addr) : Cnt unit :=
  v <- value_load a ;; counter_add v.

(** Rest of [~counter_broker()]:
    [std::lock_guard<std::mutex> _(counter_.mutex_);
     counter_.brokers_.remove( *this);] *)
Definition counter_broker_dtor_remove (a : addr) : Cnt unit :=
  lock_guard (fun s =>
    match ilist.find a (brokers_ s) with
    | Some _ => Ok tt (set_brokers_ (ilist.remove a (brokers_ s)) s)
    | None => Fault NoSuchBroker
    end).

(** [~counter_broker()] *)
Definition counter_broker_dtor (a : addr) : Cnt unit :=
  counter_broker_dtor_flush a ;; counter_broker_dtor_remove a.

(** [void operator+=(Integral amount)], the "weak atomic" update:
    [value_.store(value_.load(relaxed) + amount, relaxed);] *)
Definition broker_add (a : addr) (amount : Z) : Cnt unit :=
  v <- value_load a ;; value_store a (wrap (v + amount)).

(** [void operator-=(Integral amount)] *)
Definition broker_sub (a : addr) (amount : Z) : Cnt unit :=
  v <- value_load a ;; value_store a (wrap (v - amount)).

Definition broker_inc (a : addr) : Cnt unit := broker_add a 1.
Definition broker_dec (a : addr) : Cnt unit := broker_sub a 1.

(** *** [tls_distributed_counter] *)

Definition Tls (A : Type) : Type := M tls_distributed_counter A.

(** Run a member function of [global_]. *)
Definition on_global {A : Type} (m : Cnt A) : Tls A :=
  fun t => match m (global_ t) with
           | Ok a g => Ok a (mk_tls g)
           | Fault f => Fault f
           end.

(** [Integral load() { return global_.load(); }] *)
Definition tls_load : Tls Z :=
  r <- on_global load ;; ret r.

(** [Integral exchange(Integral to) { global_.exchange(to); }]: the call is
    an expression statement and the body ends without a [return]. *)
Definition tls_exchange (to : Z) : Tls Z :=
  on_global (exchange to) ;; raise MissingReturn.

(** ** Observations and the vocabulary of the properties *)

(** The pending value of the broker at address [a], when it is linked. *)
Definition value_of (a : addr) (s : distributable_counter) : option Z :=
  option_map value_ (ilist.find a (brokers_ s)).

(** Addresses of the registered brokers, in list order. *)
Definition registry (s : distributable_counter) : list addr :=
  map this (brokers_ s).

(** Mathematical sum of the pending values of a list of brokers. *)
Fixpoint sum_values (l : list counter_broker) : Z :=
  match l with
  | [] => 0
  | b :: l' => value_ b + sum_values l'
  end.

(** The value the counter stands for: residual plus every pending value,
    as an [Integral]. *)
Definition total (s : distributable_counter) : Z :=
  wrap (sum_values (brokers_ s) + counter_ s).

(** The registry once every [value_] has been exchanged to zero. *)
Definition drained (l : list counter_broker) : list counter_broker :=
  map (fun b => mk_broker (this b) 0) l.

(** A single indivisible read-modify-write on the [value_] of the broker at
    [a], as [std::atomic::fetch_add] performs it. *)
Definition value_fetch_add (a : addr) (amount : Z) : Cnt Z :=
  fun s => match ilist.find a (brokers_ s) with
           | Some b =>
               Ok (value_ b)
                  (set_brokers_
                     (ilist.update a (wrap (value_ b + amount)) (brokers_ s)) s)
           | None => Fault NoSuchBroker
           end.

Definition value_fetch_sub (a : addr) (amount : Z) : Cnt Z :=
  fun s => match ilist.find a (brokers_ s) with
           | Some b =>
               Ok (value_ b)
                  (set_brokers_
                     (ilist.update a (wrap (value_ b - amount)) (brokers_ s)) s)
           | None => Fault NoSuchBroker
           end.

(** The broker update as the specification words it for comparison: one
    atomic fetch-add (fetch-sub) of [amount] on [value_]. *)
Definition spec_broker_add (a : addr) (amount : Z) : Cnt unit :=
  value_fetch_add a amount ;; ret tt.

Definition spec_broker_sub (a : addr) (amount : Z) : Cnt unit :=
  value_fetch_sub a amount ;; ret tt.

(** One write issued by a client, through a broker or on the counter. *)
Inductive call : Type :=
| BrokerAdd (a : addr) (amount : Z)
| BrokerSub (a : addr) (amount : Z)
| BrokerInc (a : addr)
| BrokerDec (a : addr)
| CounterAdd (amount : Z)
| CounterSub (amount : Z)
| CounterInc
| CounterDec.

Definition exec (c : call) : Cnt unit :=
  match c with
  | BrokerAdd a amount => broker_add a amount
  | BrokerSub a amount => broker_sub a amount
  | BrokerInc a => broker_inc a
  | BrokerDec a => broker_dec a
  | CounterAdd amount => counter_add amount
  | CounterSub amount => counter_sub amount
  | CounterInc => counter_inc
  | CounterDec => counter_dec
  end.

(** The calls of a list, issued one after the other. *)
Fixpoint run (cs : list call) : Cnt unit :=
  match cs with
  | [] => ret tt
  | c :: cs' => exec c ;; run cs'
  end.

(** The broker a call goes through, if any. *)
Definition target (c : call) : option addr :=
  match c with
  | BrokerAdd a _ | BrokerSub a _ | BrokerInc a | BrokerDec a => Some a
  | _ => None
  end.

Definition targets_within (addrs : list addr) (c : call) : Prop :=
  match target c with
  | Some a => In a addrs
  | None => True
  end.

(** The signed amount a call applies. *)
Definition amount_of (c : call) : Z :=
  match c with
  | BrokerAdd _ amount | CounterAdd amount => amount
  | BrokerSub _ amount | CounterSub amount => - amount
  | BrokerInc _ | CounterInc => 1
  | BrokerDec _ | CounterDec => - 1
  end.

Fixpoint algebraic_sum (cs : list call) : Z :=
  match cs with
  | [] => 0
  | c :: cs' => amount_of c + algebraic_sum cs'
  end.

(** Construct one broker at each of the given addresses, in order. *)
Fixpoint construct_brokers (addrs : list addr) : Cnt unit :=
  match addrs with
  | [] => ret tt
  | a :: addrs' => counter_broker_ctor a ;; construct_brokers addrs'
  end.

(** The scenario of the specification: residual 3, broker A (address 1)
    holding 5, broker B (address 2) holding 10. *)
Definition scenario : distributable_counter :=
  mk_counter 3 [mk_broker 1%nat 5; mk_broker 2%nat 10] false.

(** ** Whole programs over one counter *)

(** Destroy the brokers at the given addresses, in order. *)
Fixpoint destroy_brokers (addrs : list addr) : Cnt unit :=
  match addrs with
  | [] => ret tt
  | a :: addrs' => counter_broker_dtor a ;; destroy_brokers addrs'
  end.

(** One member-function call of a client program: a write, a read of the
    counter, or the construction or destruction of a broker object. *)
Inductive op : Type :=
| OpWrite (c : call)
| OpLoad
| OpExchange (to : Z)
| OpConstruct (a : addr)
| OpDestroy (a : addr).

(** The call, with the value it hands back when it has one. *)
Definition do_op (o : op) : Cnt (option Z) :=
  match o with
  | OpWrite c => exec c ;; ret None
  | OpLoad => v <- load ;; ret (Some v)
  | OpExchange to => v <- exchange to ;; ret (Some v)
  | OpConstruct a => counter_broker_ctor a ;; ret None
  | OpDestroy a => counter_broker_dtor a ;; ret None
  end.

(** A program: its calls one after the other, with the values handed back. *)
Fixpoint run_ops (os : list op) : Cnt (list (option Z)) :=
  match os with
  | [] => ret []
  | o :: os' => r <- do_op o ;; rs <- run_ops os' ;; ret (r :: rs)
  end.

Definition registered_in (a : nat) (live : list nat) : bool :=
  existsb (Nat.eqb a) live.

Fixpoint remove_first (a : nat) (l : list nat) : list nat :=
  match l with
  | [] => []
  | x :: l' => if Nat.eqb x a then l' else x :: remove_first a l'
  end.

(** The addresses of the live broker objects, followed along a program. *)
Definition live_step (live : list addr) (o : op) : list addr :=
  match o with
  | OpConstruct a => live ++ [a]
  | OpDestroy a => remove_first a live
  | _ => live
  end.

Fixpoint live_after (live : list addr) (os : list op) : list addr :=
  match os with
  | [] => live
  | o :: os' => live_after (live_step live o) os'
  end.

(** What C++ asks of a program: a broker is used and destroyed only while
    it is alive, and constructed only where no live broker is. *)
Definition admissible_op (live : list addr) (o : op) : bool :=
  match o with
  | OpWrite c =>
      match target c with
      | Some a => registered_in a live
      | None => true
      end
  | OpConstruct a => negb (registered_in a live)
  | OpDestroy a => registered_in a live
  | OpLoad | OpExchange _ => true
  end.

Fixpoint admissible (live : list addr) (os : list op) : bool :=
  match os with
  | [] => true
  | o :: os' => admissible_op live o && admissible (live_step live o) os'
  end.

(** The same calls on a plain [Integral] variable [v], for comparison:
    writes add to it, [load] reads it, [exchange] reads it and stores [to]
    converted to [Integral]; brokers do not exist. *)
Definition plain_op (o : op) (v : Z) : option Z * Z :=
  match o with
  | OpWrite c => (None, wrap (v + amount_of c))
  | OpLoad => (Some v, v)
  | OpExchange to => (Some v, wrap to)
  | OpConstruct _ | OpDestroy _ => (None, v)
  end.

Fixpoint plain_run (os : list op) (v : Z) : list (option Z) * Z :=
  match os with
  | [] => ([], v)
  | o :: os' =>
      let (r, v1) := plain_op o v in
      let (rs, v2) := plain_run os' v1 in
      (r :: rs, v2)
  end.

(** Every atomic cell of the counter holds a value of [Integral]. *)
Definition ranged (s : distributable_counter) : Prop :=
  in_range (counter_ s) /\ Forall (fun b => in_range (value_ b)) (brokers_ s).

Definition exchanges_ranged (os : list op) : Prop :=
  Forall (fun o => match o with OpExchange to => in_range to | _ => True end)
         os.

Definition results_ranged (rs : list (option Z)) : Prop :=
  Forall (fun r => match r with Some v => in_range v | None => True end) rs.

(** ** Threads using a [tls_distributed_counter] *)

Definition thread : Type := nat.

(** The functions below take [broker_of]: the address, in the storage of
    each thread, of the [thread_local] object [broker] that [local()]
    declares. *)

(** The wrapper object together with the threads in which the declaration
    of [broker] has been passed, i.e. in which it has been constructed. *)
Record tls_world : Type := mk_world {
  wrapper : tls_distributed_counter;
  constructed : list thread
}.

Definition World (A : Type) : Type := M tls_world A.

(** Run a member function of the wrapper object. *)
Definition on_wrapper {A : Type} (m : Tls A) : World A :=
  fun wd => match m (wrapper wd) with
            | Ok a obj => Ok a (mk_world obj (constructed wd))
            | Fault f => Fault f
            end.

(** [counter_broker<Integral> &local()], called by thread [t]:
    [thread_local counter_broker<Integral> broker(global_); return broker;] *)
Definition local (broker_of : thread -> addr) (t : thread) : World addr :=
  fun wd =>
    if registered_in t (constructed wd) then Ok (broker_of t) wd
    else match on_global (counter_broker_ctor (broker_of t)) (wrapper wd) with
         | Ok _ obj => Ok (broker_of t) (mk_world obj (constructed wd ++ [t]))
         | Fault f => Fault f
         end.

(** [void operator+=(Integral amount) { local()+= amount; }] *)
Definition tls_add (broker_of : thread -> addr) (t : thread) (amount : Z)
  : World unit :=
  a <- local broker_of t ;; on_wrapper (on_global (broker_add a amount)).

(** [void operator-=(Integral amount) { local()-= amount; }] *)
Definition tls_sub (broker_of : thread -> addr) (t : thread) (amount : Z)
  : World unit :=
  a <- local broker_of t ;; on_wrapper (on_global (broker_sub a amount)).

(** [operator++] and [operator--] of the wrapper, prefix and postfix. *)
Definition tls_inc (broker_of : thread -> addr) (t : thread) : World unit :=
  tls_add broker_of t 1.
Definition tls_dec (broker_of : thread -> addr) (t : thread) : World unit :=
  tls_sub broker_of t 1.

(** End of thread [t]: the [thread_local] object, when it was constructed,
    is destroyed. *)
Definition thread_exit (broker_of : thread -> addr) (t : thread)
  : World unit :=
  fun wd =>
    if registered_in t (constructed wd) then
      match on_global (counter_broker_dtor (broker_of t)) (wrapper wd) with
      | Ok _ obj => Ok tt (mk_world obj (remove_first t (constructed wd)))
      | Fault f => Fault f
      end
    else Ok tt wd.

(** A write of a thread through the wrapper. *)
Inductive tls_call : Type :=
| TlsAdd (t : thread) (amount : Z)
| TlsSub (t : thread) (amount : Z)
| TlsInc (t : thread)
| TlsDec (t : thread).

Definition tls_exec (broker_of : thread -> addr) (c : tls_call)
  : World unit :=
  match c with
  | TlsAdd t amount => tls_add broker_of t amount
  | TlsSub t amount => tls_sub broker_of t amount
  | TlsInc t => tls_inc broker_of t
  | TlsDec t => tls_dec broker_of t
  end.

Fixpoint tls_run (broker_of : thread -> addr) (cs : list tls_call)
  : World unit :=
  match cs with
  | [] => ret tt
  | c :: cs' => tls_exec broker_of c ;; tls_run broker_of cs'
  end.

Definition caller (c : tls_call) : thread :=
  match c with
  | TlsAdd t _ | TlsSub t _ | TlsInc t | TlsDec t => t
  end.

Definition tls_amount_of (c : tls_call) : Z :=
  match c with
  | TlsAdd _ amount => amount
  | TlsSub _ amount => - amount
  | TlsInc _ => 1
  | TlsDec _ => - 1
  end.

Fixpoint tls_sum (cs : list tls_call) : Z :=
  match cs with
  | [] => 0
  | c :: cs' => tls_amount_of c + tls_sum cs'
  end.

(** The threads that call for the first time in [cs], in order, given the
    threads [seen] that have called before. *)
Fixpoint newcomers (seen : list thread) (cs : list tls_call) : list thread :=
  match cs with
  | [] => []
  | c :: cs' =>
      if registered_in (caller c) seen then newcomers seen cs'
      else caller c :: newcomers (seen ++ [caller c]) cs'
  end.

(** The brokers of the threads that have one are registered, and nobody
    holds the mutex. *)
Definition tls_ok (broker_of : thread -> addr) (wd : tls_world) : Prop :=
  mutex_ (global_ (wrapper wd)) = false /\
  NoDup (constructed wd) /\
  forall t, In t (constructed wd) ->
            In (broker_of t) (registry (global_ (wrapper wd))).

(** [tls_distributed_counter()= default;] with no thread having called yet. *)
Definition tls_distributed_counter_ctor : tls_world :=
  mk_world (mk_tls (distributable_counter_ctor 0)) [].

(** ** Example programs *)

(** On the scenario: a third broker is constructed and adds 7, the counter is
    read, rebased to 100, broker A is destroyed, the counter is decremented
    and read again. *)
Definition scenario_program : list op :=
  [OpConstruct 3%nat; OpWrite (BrokerAdd 3%nat 7); OpLoad; OpExchange 100;
   OpDestroy 1%nat; OpWrite CounterDec; OpLoad].

(** The scenario with its two brokers registered in the other order. *)
Definition scenario_swapped : distributable_counter :=
  mk_counter 3 [mk_broker 2%nat 10; mk_broker 1%nat 5] false.

(** The scenario as a wrapper used by threads 0 and 1, the broker of thread
    [t] being at address [S t]. *)
Definition scenario_world : tls_world :=
  mk_world (mk_tls scenario) [0%nat; 1%nat].

(** Threads 0 and 1 writing through a wrapper in turn. *)
Definition scenario_tls_calls : list tls_call :=
  [TlsAdd 0%nat 5; TlsAdd 1%nat 10; TlsInc 0%nat; TlsSub 1%nat 2].

(** ** Arithmetic of [Integral] *)

Lemma modulus_pos : 0 < modulus.
Proof. unfold modulus. apply Z.pow_pos_nonneg; lia. Qed.

Lemma wrap_idemp_l (a b : Z) : wrap (wrap a + b) = wrap (a + b).
Proof. unfold wrap. apply Zplus_mod_idemp_l. Qed.

Lemma wrap_idemp_r (a b : Z) : wrap (a + wrap b) = wrap (a + b).
Proof. unfold wrap. apply Zplus_mod_idemp_r. Qed.

Lemma wrap_sub_idemp_l (a b : Z) : wrap (wrap a - b) = wrap (a - b).
Proof. unfold wrap. apply Zminus_mod_idemp_l. Qed.

Lemma wrap_small (x : Z) : in_range x -> wrap x = x.
Proof. unfold in_range, wrap. intros H. now apply Z.mod_small. Qed.

Lemma wrap_in_range (x : Z) : in_range (wrap x).
Proof. unfold in_range, wrap. apply Z.mod_pos_bound, modulus_pos. Qed.

(** ** Facts about the registry *)

Lemma find_this (a : addr) (l : list counter_broker) (b : counter_broker) :
  ilist.find a l = Some b -> this b = a.
Proof.
  induction l as [|x l IH]; simpl; [discriminate|].
  destruct (Nat.eqb (this x) a) eqn:E.
  - intros [= <-]. now apply Nat.eqb_eq.
  - exact IH.
Qed.

Lemma find_registered (a : addr) (l : list counter_broker) :
  In a (map this l) -> exists b, ilist.find a l = Some b.
Proof.
  induction l as [|x l IH]; simpl; [tauto|].
  intros [H|H]; destruct (Nat.eqb (this x) a) eqn:E; eauto.
  apply Nat.eqb_neq in E. contradiction.
Qed.

Lemma find_update_same (a : addr) (v : Z) (l : list counter_broker)
      (b : counter_broker) :
  ilist.find a l = Some b ->
  ilist.find a (ilist.update a v l) = Some (mk_broker a v).
Proof.
  induction l as [|x l IH]; simpl; [discriminate|].
  destruct (Nat.eqb (this x) a) eqn:E; simpl; rewrite E.
  - intros _. apply Nat.eqb_eq in E. now rewrite E.
  - exact IH.
Qed.

Lemma find_update_other (a a' : addr) (v : Z) (l : list counter_broker) :
  a' <> a -> ilist.find a' (ilist.update a v l) = ilist.find a' l.
Proof.
  intros Hne. induction l as [|x l IH]; simpl; [reflexivity|].
  destruct (Nat.eqb (this x) a) eqn:E; simpl.
  - apply Nat.eqb_eq in E.
    destruct (Nat.eqb (this x) a') eqn:E'; [|reflexivity].
    apply Nat.eqb_eq in E'. congruence.
  - now rewrite IH.
Qed.

Lemma map_this_update (a : addr) (v : Z) (l : list counter_broker) :
  map this (ilist.update a v l) = map this l.
Proof.
  induction l as [|x l IH]; simpl; [reflexivity|].
  destruct (Nat.eqb (this x) a); simpl; [reflexivity|now rewrite IH].
Qed.

Lemma sum_values_update (a : addr) (v : Z) (l : list counter_broker)
      (b : counter_broker) :
  ilist.find a l = Some b ->
  sum_values (ilist.update a v l) = sum_values l - value_ b + v.
Proof.
  induction l as [|x l IH]; simpl; [discriminate|].
  destruct (Nat.eqb (this x) a); simpl.
  - intros [= <-]. lia.
  - intros H. rewrite (IH H). lia.
Qed.

Lemma find_remove_other (a a' : addr) (l : list counter_broker) :
  a' <> a -> ilist.find a' (ilist.remove a l) = ilist.find a' l.
Proof.
  intros Hne. induction l as [|x l IH]; simpl; [reflexivity|].
  destruct (Nat.eqb (this x) a) eqn:E; simpl.
  - apply Nat.eqb_eq in E.
    destruct (Nat.eqb (this x) a') eqn:E'; [|reflexivity].
    apply Nat.eqb_eq in E'. congruence.
  - now rewrite IH.
Qed.

Lemma sum_values_remove (a : addr) (l : list counter_broker)
      (b : counter_broker) :
  ilist.find a l = Some b ->
  sum_values (ilist.remove a l) = sum_values l - value_ b.
Proof.
  induction l as [|x l IH]; simpl; [discriminate|].
  destruct (Nat.eqb (this x) a); simpl.
  - intros [= <-]. lia.
  - intros H. rewrite (IH H). lia.
Qed.

Lemma find_push_back_fresh (a : addr) (v : Z) (l : list counter_broker) :
  ilist.find a l = None ->
  ilist.find a (ilist.push_back (mk_broker a v) l) = Some (mk_broker a v).
Proof.
  unfold ilist.push_back.
  induction l as [|x l IH]; simpl.
  - now rewrite Nat.eqb_refl.
  - destruct (Nat.eqb (this x) a); [discriminate|exact IH].
Qed.

Lemma find_push_back_old (a : addr) (b x : counter_broker)
      (l : list counter_broker) :
  ilist.find a l = Some b -> ilist.find a (ilist.push_back x l) = Some b.
Proof.
  unfold ilist.push_back.
  induction l as [|y l IH]; simpl; [discriminate|].
  destruct (Nat.eqb (this y) a); [trivial|exact IH].
Qed.

Lemma remove_push_back_fresh (a : addr) (v : Z) (l : list counter_broker) :
  ilist.find a l = None ->
  ilist.remove a (ilist.push_back (mk_broker a v) l) = l.
Proof.
  unfold ilist.push_back.
  induction l as [|x l IH]; simpl.
  - now rewrite Nat.eqb_refl.
  - destruct (Nat.eqb (this x) a); [discriminate|].
    intros H. now rewrite (IH H).
Qed.

Lemma sum_values_app (l1 l2 : list counter_broker) :
  sum_values (l1 ++ l2) = sum_values l1 + sum_values l2.
Proof. induction l1 as [|x l1 IH]; simpl; [reflexivity|rewrite IH; lia]. Qed.

(** ** The two loops *)

Lemma load_loop_sum (l : list counter_broker) :
  forall accumulator c,
    wrap (load_loop l accumulator + c)
    = wrap (accumulator + sum_values l + c).
Proof.
  induction l as [|b l IH]; intros acc c; simpl.
  - f_equal. lia.
  - rewrite IH.
    replace (wrap (acc + value_ b) + sum_values l + c)
      with (wrap (acc + value_ b) + (sum_values l + c)) by lia.
    rewrite wrap_idemp_l. f_equal. lia.
Qed.

Lemma exchange_loop_drains (l : list counter_broker) :
  forall old_value,
    exchange_loop l old_value = (load_loop l old_value, drained l).
Proof.
  induction l as [|b l IH]; intros acc; simpl; [reflexivity|].
  now rewrite IH.
Qed.

Lemma sum_values_drained (l : list counter_broker) :
  sum_values (drained l) = 0.
Proof. induction l as [|b l IH]; simpl; [reflexivity|now rewrite IH]. Qed.

Lemma map_this_drained (l : list counter_broker) :
  map this (drained l) = map this l.
Proof. induction l as [|b l IH]; simpl; [reflexivity|now rewrite IH]. Qed.

Lemma drained_all_zero (l : list counter_broker) :
  Forall (fun b => value_ b = 0) (drained l).
Proof. induction l as [|b l IH]; simpl; constructor; auto. Qed.

(** ** Member functions, evaluated *)

Ltac cxx_unfold :=
  unfold load, exchange, counter_broker_ctor, counter_broker_dtor,
    counter_broker_dtor_flush, counter_broker_dtor_remove,
    broker_inc, broker_dec, broker_add, broker_sub,
    counter_inc, counter_dec, counter_add, counter_sub,
    spec_broker_add, spec_broker_sub, value_fetch_add, value_fetch_sub,
    lock_guard, lock, unlock, value_load, value_store,
    counter_fetch_add, counter_fetch_sub, counter_atomic_load,
    counter_atomic_exchange, bind, ret, raise,
    set_mutex_, set_brokers_, set_counter_; simpl.

Lemma load_unlocked (s : distributable_counter) :
  mutex_ s = false -> load s = Ok (total s) s.
Proof.
  destruct s as [c l m]; simpl; intros ->.
  cxx_unfold. unfold total; simpl. f_equal.
  now rewrite load_loop_sum.
Qed.

Lemma exchange_unlocked (to : Z) (s : distributable_counter) :
  mutex_ s = false ->
  exchange to s = Ok (total s) (mk_counter to (drained (brokers_ s)) false).
Proof.
  destruct s as [c l m]; simpl; intros ->.
  cxx_unfold. rewrite exchange_loop_drains. simpl.
  unfold total; simpl. f_equal.
  now rewrite load_loop_sum.
Qed.

Lemma counter_add_effect (amount : Z) (s : distributable_counter) :
  counter_add amount s = Ok tt (set_counter_ (wrap (counter_ s + amount)) s).
Proof. reflexivity. Qed.

Lemma counter_sub_effect (amount : Z) (s : distributable_counter) :
  counter_sub amount s = Ok tt (set_counter_ (wrap (counter_ s - amount)) s).
Proof. reflexivity. Qed.

Lemma broker_add_live (a : addr) (amount : Z) (s : distributable_counter)
      (b : counter_broker) :
  ilist.find a (brokers_ s) = Some b ->
  broker_add a amount s
  = Ok tt (set_brokers_
             (ilist.update a (wrap (value_ b + amount)) (brokers_ s)) s).
Proof. intros H. cxx_unfold. now rewrite H; simpl; rewrite H. Qed.

Lemma broker_sub_live (a : addr) (amount : Z) (s : distributable_counter)
      (b : counter_broker) :
  ilist.find a (brokers_ s) = Some b ->
  broker_sub a amount s
  = Ok tt (set_brokers_
             (ilist.update a (wrap (value_ b - amount)) (brokers_ s)) s).
Proof. intros H. cxx_unfold. now rewrite H; simpl; rewrite H. Qed.

Lemma counter_broker_ctor_unlocked (a : addr) (s : distributable_counter) :
  mutex_ s = false ->
  counter_broker_ctor a s
  = Ok tt (set_brokers_ (ilist.push_back (mk_broker a 0) (brokers_ s)) s).
Proof.
  destruct s as [c l m]; simpl; intros ->. reflexivity.
Qed.

Lemma counter_broker_dtor_flush_live (a : addr) (s : distributable_counter)
      (b : counter_broker) :
  ilist.find a (brokers_ s) = Some b ->
  counter_broker_dtor_flush a s
  = Ok tt (set_counter_ (wrap (counter_ s + value_ b)) s).
Proof. intros H. cxx_unfold. now rewrite H. Qed.

Lemma counter_broker_dtor_remove_live (a : addr) (s : distributable_counter)
      (b : counter_broker) :
  mutex_ s = false ->
  ilist.find a (brokers_ s) = Some b ->
  counter_broker_dtor_remove a s
  = Ok tt (set_brokers_ (ilist.remove a (brokers_ s)) s).
Proof.
  destruct s as [c l m]; simpl; intros -> H.
  cxx_unfold. now rewrite H.
Qed.

Lemma counter_broker_dtor_live (a : addr) (s : distributable_counter)
      (b : counter_broker) :
  mutex_ s = false ->
  ilist.find a (brokers_ s) = Some b ->
  counter_broker_dtor a s
  = Ok tt (mk_counter (wrap (counter_ s + value_ b))
                      (ilist.remove a (brokers_ s)) false).
Proof.
  intros Hm H. unfold counter_broker_dtor, bind.
  rewrite (counter_broker_dtor_flush_live a s b H).
  rewrite (counter_broker_dtor_remove_live a _ b); simpl; auto.
  unfold set_brokers_; simpl. now rewrite Hm.
Qed.

(** ** Sequences of writes *)

Lemma exec_effect (c : call) (s : distributable_counter) :
  targets_within (registry s) c ->
  exists s',
    exec c s = Ok tt s' /\ mutex_ s' = mutex_ s /\ registry s' = registry s /\
    total s' = wrap (total s + amount_of c).
Proof.
  unfold targets_within, registry, total.
  destruct c as [a n|a n|a|a|n|n| |]; simpl; intros Ht;
    try (apply find_registered in Ht; destruct Ht as [b Hb]).
  - rewrite (broker_add_live a n s b Hb). eexists; repeat split; simpl.
    + apply map_this_update.
    + rewrite (sum_values_update a _ _ b Hb), wrap_idemp_l.
      replace (sum_values (brokers_ s) - value_ b + wrap (value_ b + n) + counter_ s)
        with (wrap (value_ b + n) + (sum_values (brokers_ s) - value_ b + counter_ s))
        by lia.
      rewrite wrap_idemp_l. f_equal. lia.
  - rewrite (broker_sub_live a n s b Hb). eexists; repeat split; simpl.
    + apply map_this_update.
    + rewrite (sum_values_update a _ _ b Hb), wrap_idemp_l.
      replace (sum_values (brokers_ s) - value_ b + wrap (value_ b - n) + counter_ s)
        with (wrap (value_ b - n) + (sum_values (brokers_ s) - value_ b + counter_ s))
        by lia.
      rewrite wrap_idemp_l. f_equal. lia.
  - unfold broker_inc. rewrite (broker_add_live a 1 s b Hb).
    eexists; repeat split; simpl.
    + apply map_this_update.
    + rewrite (sum_values_update a _ _ b Hb), wrap_idemp_l.
      replace (sum_values (brokers_ s) - value_ b + wrap (value_ b + 1) + counter_ s)
        with (wrap (value_ b + 1) + (sum_values (brokers_ s) - value_ b + counter_ s))
        by lia.
      rewrite wrap_idemp_l. f_equal. lia.
  - unfold broker_dec. rewrite (broker_sub_live a 1 s b Hb).
    eexists; repeat split; simpl.
    + apply map_this_update.
    + rewrite (sum_values_update a _ _ b Hb), wrap_idemp_l.
      replace (sum_values (brokers_ s) - value_ b + wrap (value_ b - 1) + counter_ s)
        with (wrap (value_ b - 1) + (sum_values (brokers_ s) - value_ b + counter_ s))
        by lia.
      rewrite wrap_idemp_l. f_equal. lia.
  - rewrite counter_add_effect. eexists; repeat split; simpl.
    rewrite wrap_idemp_r, wrap_idemp_l. f_equal. lia.
  - rewrite counter_sub_effect. eexists; repeat split; simpl.
    rewrite wrap_idemp_r, wrap_idemp_l. f_equal. lia.
  - unfold counter_inc. rewrite counter_add_effect.
    eexists; repeat split; simpl.
    rewrite wrap_idemp_r, wrap_idemp_l. f_equal. lia.
  - unfold counter_dec. rewrite counter_sub_effect.
    eexists; repeat split; simpl.
    rewrite wrap_idemp_r, wrap_idemp_l. f_equal. lia.
Qed.

Lemma run_effect (cs : list call) :
  forall s,
    Forall (targets_within (registry s)) cs ->
    exists s',
      run cs s = Ok tt s' /\ mutex_ s' = mutex_ s /\
      registry s' = registry s /\
      total s' = wrap (total s + algebraic_sum cs).
Proof.
  induction cs as [|c cs IH]; intros s Hall; simpl.
  - exists s. repeat split.
    unfold total. rewrite Z.add_0_r. unfold wrap.
    now rewrite Z.mod_mod by (pose proof modulus_pos; unfold modulus in *; lia).
  - inversion Hall as [|? ? Hc Hcs]; subst.
    destruct (exec_effect c s Hc) as (s1 & E1 & M1 & R1 & T1).
    rewrite <- R1 in Hcs.
    destruct (IH s1 Hcs) as (s2 & E2 & M2 & R2 & T2).
    exists s2. unfold bind. rewrite E1. repeat split; try congruence.
    rewrite T2, T1, wrap_idemp_l. f_equal. lia.
Qed.

Lemma construct_brokers_unlocked (addrs : list addr) :
  forall s,
    mutex_ s = false ->
    construct_brokers addrs s
    = Ok tt (set_brokers_
               (brokers_ s ++ map (fun a => mk_broker a 0) addrs) s).
Proof.
  induction addrs as [|a addrs IH]; intros s Hm; simpl.
  - unfold ret. rewrite app_nil_r. now destruct s.
  - unfold bind. rewrite (counter_broker_ctor_unlocked a s Hm).
    rewrite IH by exact Hm. simpl. unfold ilist.push_back, set_brokers_; simpl.
    now rewrite <- app_assoc.
Qed.

Lemma sum_values_fresh (addrs : list addr) :
  sum_values (map (fun a => mk_broker a 0) addrs) = 0.
Proof. induction addrs as [|a l IH]; simpl; [reflexivity|now rewrite IH]. Qed.

Lemma map_this_fresh (addrs : list addr) :
  map this (map (fun a => mk_broker a 0) addrs) = addrs.
Proof. induction addrs as [|a l IH]; simpl; [reflexivity|now rewrite IH]. Qed.

Lemma load_tracks_writes (cs : list call) (s : distributable_counter) :
  mutex_ s = false ->
  Forall (targets_within (registry s)) cs ->
  exists s',
    run cs s = Ok tt s' /\ load s' = Ok (wrap (total s + algebraic_sum cs)) s'.
Proof.
  intros Hm Hall.
  destruct (run_effect cs s Hall) as (s' & E & M' & _ & T).
  exists s'. split; [exact E|].
  rewrite load_unlocked by congruence. now rewrite T.
Qed.

(** ** Properties of the specification *)

(** C1 (P2, shard transparency): on a counter constructed with the default
    initial value, with one broker constructed at each address of [addrs],
    any sequence of add/subtract (and ++/--) calls issued one after the other
    through those brokers or directly on the counter runs to completion, and
    a subsequent [load()] returns the algebraic sum of all the amounts
    applied, modulo 2^w. *)
Theorem load_after_sharded_writes (addrs : list addr) (cs : list call) :
  Forall (targets_within addrs) cs ->
  exists s',
    (construct_brokers addrs ;; run cs) (distributable_counter_ctor 0)
    = Ok tt s' /\
    load s' = Ok (wrap (algebraic_sum cs)) s'.
Proof.
  intros Hall. unfold bind.
  rewrite construct_brokers_unlocked by reflexivity. simpl.
  set (s0 := set_brokers_ _ _).
  assert (Hr : registry s0 = addrs) by apply map_this_fresh.
  assert (Ht : total s0 = wrap 0).
  { unfold total, s0; simpl. now rewrite sum_values_fresh. }
  rewrite <- Hr in Hall.
  destruct (load_tracks_writes cs s0 eq_refl Hall) as (s' & E & L).
  exists s'. split; [exact E|].
  rewrite L, Ht, wrap_idemp_l. reflexivity.
Qed.

(** C2 (P3, exchange resets): [exchange(to)] returns the total the counter
    stands for at the call, which is what [load()] returns there: the sum of
    the values of the registered brokers plus the residual; it leaves every
    registered broker at zero and the residual at [to], and a [load()] that
    follows immediately returns exactly [to]. *)
Theorem exchange_returns_total_and_resets
        (to : Z) (s : distributable_counter) :
  mutex_ s = false ->
  in_range to ->
  exists s',
    exchange to s = Ok (total s) s' /\
    load s = Ok (total s) s /\
    total s = wrap (sum_values (brokers_ s) + counter_ s) /\
    Forall (fun b => value_ b = 0) (brokers_ s') /\
    registry s' = registry s /\
    counter_ s' = to /\
    load s' = Ok to s'.
Proof.
  intros Hm Hto. eexists. split; [apply exchange_unlocked; exact Hm|].
  split; [apply load_unlocked; exact Hm|].
  split; [reflexivity|].
  split; [apply drained_all_zero|].
  split; [apply map_this_drained|].
  split; [reflexivity|].
  rewrite load_unlocked by reflexivity.
  unfold total; simpl. rewrite sum_values_drained; simpl.
  now rewrite wrap_small.
Qed.

(** C4 (known race window): [~counter_broker()] is the flush of [value_]
    into the residual followed by the removal from the registry; after the
    flush the broker is still registered and still holds its value, so a
    [load()] or an [exchange()] run between the two steps returns the total
    plus the broker's value once more, while before the flush and after the
    removal [load()] returns the total. *)
Theorem dtor_window_double_counts
        (a : addr) (b : counter_broker) (to : Z) (s : distributable_counter) :
  mutex_ s = false ->
  ilist.find a (brokers_ s) = Some b ->
  exists s1 s2,
    counter_broker_dtor_flush a s = Ok tt s1 /\
    counter_broker_dtor_remove a s1 = Ok tt s2 /\
    counter_broker_dtor a s = Ok tt s2 /\
    counter_ s1 = wrap (counter_ s + value_ b) /\
    brokers_ s1 = brokers_ s /\
    ilist.find a (brokers_ s1) = Some b /\
    load s = Ok (total s) s /\
    load s1 = Ok (wrap (total s + value_ b)) s1 /\
    (exists s1', exchange to s1 = Ok (wrap (total s + value_ b)) s1') /\
    load s2 = Ok (total s) s2.
Proof.
  intros Hm Hb.
  exists (set_counter_ (wrap (counter_ s + value_ b)) s).
  exists (mk_counter (wrap (counter_ s + value_ b))
                     (ilist.remove a (brokers_ s)) false).
  assert (Hwin : total (set_counter_ (wrap (counter_ s + value_ b)) s)
                 = wrap (total s + value_ b)).
  { unfold total; simpl. rewrite wrap_idemp_r, wrap_idemp_l. f_equal. lia. }
  split; [apply counter_broker_dtor_flush_live; exact Hb|].
  split.
  { rewrite (counter_broker_dtor_remove_live a _ b); simpl; auto.
    unfold set_brokers_; simpl. now rewrite Hm. }
  split; [apply counter_broker_dtor_live; assumption|].
  split; [reflexivity|].
  split; [reflexivity|].
  split; [exact Hb|].
  split; [apply load_unlocked; exact Hm|].
  split; [rewrite load_unlocked by exact Hm; now rewrite Hwin|].
  split.
  { eexists. rewrite exchange_unlocked by exact Hm. now rewrite Hwin. }
  rewrite load_unlocked by reflexivity. f_equal.
  unfold total; simpl.
  rewrite (sum_values_remove a _ b Hb), wrap_idemp_r. f_equal. lia.
Qed.

(** C5 ([load] observes only): when [load()] returns, the counter object,
    hence every registered broker's value and the residual, is exactly what
    it was before the call, and a second [load()] right after returns the
    same value; [exchange] is the member function that resets the brokers,
    each to zero. *)
Theorem load_observes_only (to : Z) (s : distributable_counter) :
  mutex_ s = false ->
  exists v,
    load s = Ok v s /\
    (v1 <- load ;; v2 <- load ;; ret (v1, v2)) s = Ok (v, v) s /\
    exists s', exchange to s = Ok v s' /\ brokers_ s' = drained (brokers_ s).
Proof.
  intros Hm. exists (total s).
  split; [apply load_unlocked; exact Hm|].
  split.
  - unfold bind. now rewrite !load_unlocked by exact Hm.
  - eexists. split; [apply exchange_unlocked; exact Hm|reflexivity].
Qed.

(** C7 (weak atomic update): the broker's [operator+=] ([operator-=]), an
    atomic load of [value_] followed by an atomic store of the updated value,
    run without interleaving, is equal as a program to a single atomic
    fetch-add (fetch-sub) of [amount] on [value_]; on a live broker it
    completes and leaves value' = (value + amount) mod 2^w, respectively
    (value - amount) mod 2^w. *)
Theorem weak_atomic_refines_fetch_add
        (a : addr) (amount : Z) (s : distributable_counter) :
  broker_add a amount s = spec_broker_add a amount s /\
  broker_sub a amount s = spec_broker_sub a amount s /\
  forall b, ilist.find a (brokers_ s) = Some b ->
    (exists s', broker_add a amount s = Ok tt s' /\
                value_of a s' = Some ((value_ b + amount) mod 2 ^ Z.of_nat w)) /\
    (exists s', broker_sub a amount s = Ok tt s' /\
                value_of a s' = Some ((value_ b - amount) mod 2 ^ Z.of_nat w)).
Proof.
  split; [|split].
  - cxx_unfold. destruct (ilist.find a (brokers_ s)) as [b|] eqn:E; simpl.
    + now rewrite E.
    + reflexivity.
  - cxx_unfold. destruct (ilist.find a (brokers_ s)) as [b|] eqn:E; simpl.
    + now rewrite E.
    + reflexivity.
  - intros b Hb. split; eexists.
    + split; [apply broker_add_live; exact Hb|].
      unfold value_of; simpl. now rewrite (find_update_same a _ _ b Hb).
    + split; [apply broker_sub_live; exact Hb|].
      unfold value_of; simpl. now rewrite (find_update_same a _ _ b Hb).
Qed.

(** C8 (P5, broker independence): for two distinct brokers of one counter,
    an add or a subtract on the first, the flush of the first and its whole
    destruction all complete and leave the pending value of the second as it
    was. *)
Theorem brokers_independent
        (a b : addr) (ba : counter_broker) (amount : Z)
        (s : distributable_counter) :
  a <> b ->
  mutex_ s = false ->
  ilist.find a (brokers_ s) = Some ba ->
  (exists s', broker_add a amount s = Ok tt s' /\
              value_of b s' = value_of b s) /\
  (exists s', broker_sub a amount s = Ok tt s' /\
              value_of b s' = value_of b s) /\
  (exists s', counter_broker_dtor_flush a s = Ok tt s' /\
              value_of b s' = value_of b s) /\
  (exists s', counter_broker_dtor a s = Ok tt s' /\
              value_of b s' = value_of b s).
Proof.
  intros Hne Hm Ha.
  assert (Hne' : b <> a) by congruence.
  repeat split; eexists.
  - split; [apply broker_add_live; exact Ha|].
    unfold value_of; simpl. now rewrite find_update_other.
  - split; [apply broker_sub_live; exact Ha|].
    unfold value_of; simpl. now rewrite find_update_other.
  - split; [apply counter_broker_dtor_flush_live; exact Ha|reflexivity].
  - split; [apply counter_broker_dtor_live; eassumption|].
    unfold value_of; simpl. now rewrite find_remove_other.
Qed.

(** C9 (direct writes cannot fail): for every counter object and every
    amount, [operator+=] and [operator-=] of the counter complete, set the
    residual to (residual + amount) mod 2^w, respectively
    (residual - amount) mod 2^w, and change nothing else. *)
Theorem counter_writes_wrap (amount : Z) (s : distributable_counter) :
  counter_add amount s
  = Ok tt (mk_counter ((counter_ s + amount) mod 2 ^ Z.of_nat w)
                      (brokers_ s) (mutex_ s)) /\
  counter_sub amount s
  = Ok tt (mk_counter ((counter_ s - amount) mod 2 ^ Z.of_nat w)
                      (brokers_ s) (mutex_ s)).
Proof. split; reflexivity. Qed.

(** C10 (construct then destroy): a broker constructed at a fresh address
    holds 0; destroying it right away completes, puts the registry back to
    the list it was, and [load()] returns what it returned before the
    construction. *)
Theorem construct_then_destroy_is_identity
        (a : addr) (s : distributable_counter) :
  mutex_ s = false ->
  ilist.find a (brokers_ s) = None ->
  exists s1 s2,
    counter_broker_ctor a s = Ok tt s1 /\
    value_of a s1 = Some 0 /\
    counter_broker_dtor a s1 = Ok tt s2 /\
    brokers_ s2 = brokers_ s /\
    mutex_ s2 = mutex_ s /\
    load s = Ok (total s) s /\
    load s2 = Ok (total s) s2.
Proof.
  intros Hm Hfresh.
  pose proof (find_push_back_fresh a 0 _ Hfresh) as Hlive.
  eexists. eexists.
  split; [apply counter_broker_ctor_unlocked; exact Hm|].
  split; [unfold value_of; simpl; now rewrite Hlive|].
  split.
  { rewrite (counter_broker_dtor_live a _ (mk_broker a 0)); simpl; auto. }
  simpl. rewrite (remove_push_back_fresh a 0 _ Hfresh).
  split; [reflexivity|].
  split; [now rewrite Hm|].
  split; [apply load_unlocked; exact Hm|].
  rewrite load_unlocked by reflexivity. f_equal.
  unfold total; simpl. rewrite wrap_idemp_r. f_equal. lia.
Qed.

(** The wrapper's [load] hands back what [global_.load()] returns. *)
Lemma tls_load_delegates (t : tls_distributed_counter) :
  tls_load t = on_global load t.
Proof.
  unfold tls_load, bind, ret, on_global.
  now destruct (load (global_ t)).
Qed.

(** The wrapper's [exchange] never hands a value back. *)
Lemma tls_exchange_no_value (to : Z) (t : tls_distributed_counter) :
  exists f, tls_exchange to t = Fault f.
Proof.
  unfold tls_exchange, bind, raise, on_global.
  destruct (exchange to (global_ t)); eauto.
Qed.

(** ** Further facts about lists of addresses and brokers *)

Lemma registered_in_In (a : nat) (l : list nat) :
  registered_in a l = true <-> In a l.
Proof.
  unfold registered_in. rewrite existsb_exists. split.
  - intros (x & Hx & E). apply Nat.eqb_eq in E. now subst.
  - intros H. exists a. split; [exact H|apply Nat.eqb_refl].
Qed.

Lemma registered_in_not_In (a : nat) (l : list nat) :
  registered_in a l = false <-> ~ In a l.
Proof.
  rewrite <- registered_in_In. destruct (registered_in a l); split;
    congruence.
Qed.

Lemma map_this_remove (a : addr) (l : list counter_broker) :
  map this (ilist.remove a l) = remove_first a (map this l).
Proof.
  induction l as [|x l IH]; simpl; [reflexivity|].
  destruct (Nat.eqb (this x) a); simpl; [reflexivity|now rewrite IH].
Qed.

Lemma In_remove_first (a x : nat) (l : list nat) :
  In x (remove_first a l) -> In x l.
Proof.
  induction l as [|y l IH]; simpl; [tauto|].
  destruct (Nat.eqb y a); simpl; tauto.
Qed.

Lemma NoDup_remove_first (a : nat) (l : list nat) :
  NoDup l -> NoDup (remove_first a l).
Proof.
  induction 1 as [|y l Hy Hl IH]; simpl; [constructor|].
  destruct (Nat.eqb y a); [exact Hl|].
  constructor; [|exact IH].
  intros H. apply Hy. now apply In_remove_first in H.
Qed.

Lemma In_remove_first_iff (a x : nat) (l : list nat) :
  NoDup l -> (In x (remove_first a l) <-> In x l /\ x <> a).
Proof.
  induction 1 as [|y l Hy Hl IH]; simpl; [tauto|].
  destruct (Nat.eqb y a) eqn:E.
  - apply Nat.eqb_eq in E. subst y. split.
    + intros H. split; [now right|]. intros ->. contradiction.
    + intros [[H|H] Hne]; [congruence|exact H].
  - apply Nat.eqb_neq in E. simpl. rewrite IH. split.
    + intros [H|[H Hne]]; [subst; split; [now left|congruence]|].
      split; [now right|exact Hne].
    + intros [[H|H] Hne]; [now left|right; split; assumption].
Qed.

Lemma NoDup_snoc (a : nat) (l : list nat) :
  NoDup l -> ~ In a l -> NoDup (l ++ [a]).
Proof.
  induction 1 as [|y l Hy Hl IH]; simpl; intros Ha.
  - constructor; [tauto|constructor].
  - constructor.
    + rewrite in_app_iff. simpl. intros [H|[H|[]]]; [contradiction|].
      apply Ha. now left.
    + apply IH. intros H. apply Ha. now right.
Qed.

Lemma update_same_value (a : addr) (l : list counter_broker)
      (b : counter_broker) :
  ilist.find a l = Some b -> ilist.update a (value_ b) l = l.
Proof.
  induction l as [|x l IH]; simpl; [discriminate|].
  destruct (Nat.eqb (this x) a).
  - intros [= <-]. now destruct x.
  - intros H. now rewrite (IH H).
Qed.

Lemma update_update (a : addr) (v v' : Z) (l : list counter_broker) :
  ilist.update a v (ilist.update a v' l) = ilist.update a v l.
Proof.
  induction l as [|x l IH]; simpl; [reflexivity|].
  destruct (Nat.eqb (this x) a) eqn:E; simpl; rewrite E.
  - reflexivity.
  - now rewrite IH.
Qed.

(** ** One call against the plain variable *)

Lemma do_op_effect (o : op) (s : distributable_counter) :
  mutex_ s = false ->
  admissible_op (registry s) o = true ->
  exists s',
    do_op o s = Ok (fst (plain_op o (total s))) s' /\
    total s' = snd (plain_op o (total s)) /\
    registry s' = live_step (registry s) o /\
    mutex_ s' = false.
Proof.
  intros Hm Hadm. destruct o as [c| |to|a|a]; simpl in *.
  - assert (Ht : targets_within (registry s) c).
    { unfold targets_within. destruct (target c); [|exact I].
      now apply registered_in_In. }
    destruct (exec_effect c s Ht) as (s' & E & M' & R' & T').
    exists s'. unfold bind. rewrite E.
    repeat split; [exact T'|exact R'|congruence].
  - exists s. unfold bind. rewrite (load_unlocked s Hm).
    repeat split. exact Hm.
  - eexists. unfold bind. rewrite (exchange_unlocked to s Hm).
    split; [reflexivity|]. split; [|split; [apply map_this_drained|reflexivity]].
    unfold total; simpl. now rewrite sum_values_drained.
  - eexists. unfold bind. rewrite (counter_broker_ctor_unlocked a s Hm).
    split; [reflexivity|]. split; [|split].
    + unfold total, ilist.push_back; simpl.
      rewrite sum_values_app; simpl. f_equal. lia.
    + unfold registry, ilist.push_back; simpl. now rewrite map_app.
    + exact Hm.
  - apply registered_in_In in Hadm.
    destruct (find_registered a _ Hadm) as [b Hb].
    eexists. unfold bind. rewrite (counter_broker_dtor_live a s b Hm Hb).
    split; [reflexivity|]. split; [|split].
    + unfold total; simpl.
      rewrite (sum_values_remove a _ b Hb), wrap_idemp_r. f_equal. lia.
    + unfold registry; simpl. apply map_this_remove.
    + reflexivity.
Qed.

Lemma run_ops_effect (os : list op) :
  forall s,
    mutex_ s = false ->
    admissible (registry s) os = true ->
    exists s',
      run_ops os s = Ok (fst (plain_run os (total s))) s' /\
      total s' = snd (plain_run os (total s)) /\
      registry s' = live_after (registry s) os /\
      mutex_ s' = false.
Proof.
  induction os as [|o os IH]; intros s Hm Hadm; simpl in *.
  - exists s. repeat split. exact Hm.
  - apply andb_true_iff in Hadm. destruct Hadm as [Ho Hos].
    destruct (do_op_effect o s Hm Ho) as (s1 & E1 & T1 & R1 & M1).
    rewrite <- R1 in Hos.
    destruct (IH s1 M1 Hos) as (s2 & E2 & T2 & R2 & M2).
    exists s2. unfold bind. rewrite E1, E2.
    destruct (plain_op o (total s)) as [r v1] eqn:Ep. simpl in *.
    rewrite T1 in *.
    destruct (plain_run os v1) as [rs v2] eqn:Er. simpl in *.
    repeat split; try assumption. now rewrite R2, R1.
Qed.

Lemma NoDup_live_after (os : list op) :
  forall live,
    NoDup live -> admissible live os = true -> NoDup (live_after live os).
Proof.
  induction os as [|o os IH]; intros live Hnd Hadm; simpl in *; [exact Hnd|].
  apply andb_true_iff in Hadm. destruct Hadm as [Ho Hos].
  apply IH; [|exact Hos].
  destruct o as [c| |to|a|a]; simpl in *; try exact Hnd.
  - apply NoDup_snoc; [exact Hnd|].
    apply registered_in_not_In. now destruct (registered_in a live).
  - now apply NoDup_remove_first.
Qed.

Lemma destroy_brokers_effect (addrs : list addr) :
  forall s,
    mutex_ s = false ->
    NoDup (registry s) ->
    NoDup addrs ->
    (forall a, In a addrs <-> In a (registry s)) ->
    exists s',
      destroy_brokers addrs s = Ok tt s' /\ brokers_ s' = [] /\
      mutex_ s' = false /\ total s' = total s.
Proof.
  induction addrs as [|a addrs IH]; intros s Hm Hnd Hna Hsame; simpl.
  - exists s. repeat split; try assumption.
    destruct (brokers_ s) as [|b l] eqn:E; [reflexivity|].
    exfalso. apply (proj2 (Hsame (this b))).
    unfold registry. rewrite E. now left.
  - assert (Ha : In a (registry s)) by (apply Hsame; now left).
    destruct (find_registered a _ Ha) as [b Hb].
    unfold bind. rewrite (counter_broker_dtor_live a s b Hm Hb).
    set (s1 := mk_counter _ _ _).
    assert (R1 : registry s1 = remove_first a (registry s))
      by apply map_this_remove.
    inversion Hna as [|? ? Hnotin Hna']; subst.
    destruct (IH s1 eq_refl) as (s2 & E2 & B2 & M2 & T2).
    + rewrite R1. now apply NoDup_remove_first.
    + exact Hna'.
    + intros x. rewrite R1, (In_remove_first_iff a x _ Hnd). split.
      * intros Hx. split; [apply Hsame; now right|].
        intros ->. contradiction.
      * intros [Hx Hne]. apply Hsame in Hx. destruct Hx; congruence.
    + exists s2. repeat split; try assumption.
      rewrite T2. unfold total, s1; simpl.
      rewrite (sum_values_remove a _ b Hb), wrap_idemp_r. f_equal. lia.
Qed.

Lemma Forall_update (P : counter_broker -> Prop) (a : addr) (v : Z)
      (l : list counter_broker) :
  (forall x, P (mk_broker x v)) -> Forall P l -> Forall P (ilist.update a v l).
Proof.
  intros Hv. induction 1 as [|x l Hx Hl IH]; simpl; [constructor|].
  destruct (Nat.eqb (this x) a); constructor; auto.
Qed.

Lemma Forall_remove (P : counter_broker -> Prop) (a : addr)
      (l : list counter_broker) :
  Forall P l -> Forall P (ilist.remove a l).
Proof.
  induction 1 as [|x l Hx Hl IH]; simpl; [constructor|].
  destruct (Nat.eqb (this x) a); [exact Hl|constructor; auto].
Qed.

Lemma find_Forall (P : counter_broker -> Prop) (a : addr)
      (l : list counter_broker) (b : counter_broker) :
  Forall P l -> ilist.find a l = Some b -> P b.
Proof.
  induction 1 as [|x l Hx Hl IH]; simpl; [discriminate|].
  destruct (Nat.eqb (this x) a); [intros [= <-]; exact Hx|exact IH].
Qed.

Lemma in_range_0 : in_range 0.
Proof. unfold in_range. pose proof modulus_pos. lia. Qed.

Lemma exec_ranged (c : call) (s s' : distributable_counter) :
  exec c s = Ok tt s' -> ranged s -> ranged s'.
Proof.
  unfold ranged. intros E [Hc Hb].
  destruct c as [a n|a n|a|a|n|n| |]; simpl in E;
    unfold broker_inc, broker_dec, counter_inc, counter_dec in E;
    try (destruct (ilist.find a (brokers_ s)) as [b|] eqn:Hf;
         [|revert E; cxx_unfold; rewrite Hf; discriminate]).
  1: rewrite (broker_add_live a n s b Hf) in E.
  2: rewrite (broker_sub_live a n s b Hf) in E.
  3: rewrite (broker_add_live a 1 s b Hf) in E.
  4: rewrite (broker_sub_live a 1 s b Hf) in E.
  5, 7: rewrite counter_add_effect in E.
  7, 8: rewrite counter_sub_effect in E.
  all: injection E as <-; simpl; split; auto using wrap_in_range.
  all: apply Forall_update; auto; intros; apply wrap_in_range.
Qed.

Lemma do_op_ranged (o : op) (s : distributable_counter) :
  mutex_ s = false ->
  admissible_op (registry s) o = true ->
  ranged s ->
  match o with OpExchange to => in_range to | _ => True end ->
  forall r s',
    do_op o s = Ok r s' ->
    ranged s' /\ match r with Some v => in_range v | None => True end.
Proof.
  intros Hm Hadm Hr Harg r s'.
  destruct o as [c| |to|a|a]; simpl in *; unfold bind.
  - destruct (exec c s) as [[] s1|f] eqn:E; [|discriminate].
    intros [= <- <-]. split; [now apply (exec_ranged c s)|exact I].
  - rewrite (load_unlocked s Hm). intros [= <- <-].
    split; [exact Hr|apply wrap_in_range].
  - rewrite (exchange_unlocked to s Hm). intros [= <- <-].
    split; [|apply wrap_in_range].
    split; simpl; [exact Harg|].
    eapply Forall_impl; [|apply drained_all_zero].
    intros b ->. apply in_range_0.
  - rewrite (counter_broker_ctor_unlocked a s Hm). intros [= <- <-].
    split; [|exact I]. destruct Hr as [Hc Hb]. split; simpl; [exact Hc|].
    unfold ilist.push_back. apply Forall_app. split; [exact Hb|].
    constructor; [apply in_range_0|constructor].
  - apply registered_in_In in Hadm.
    destruct (find_registered a _ Hadm) as [b Hb].
    rewrite (counter_broker_dtor_live a s b Hm Hb). intros [= <- <-].
    split; [|exact I]. destruct Hr as [Hc Hbs]. split; simpl.
    + apply wrap_in_range.
    + now apply Forall_remove.
Qed.

Lemma sum_values_Permutation (l l' : list counter_broker) :
  Permutation l l' -> sum_values l = sum_values l'.
Proof.
  induction 1; simpl; lia.
Qed.

(** ** Properties of whole programs *)

(** X1 (a sharded counter is a plain counter): an admissible program of
    writes, loads, exchanges and broker constructions and destructions, run
    with the mutex free, completes; every [load()] and [exchange()] in it
    hands back what the same call hands back on one plain [Integral]
    variable started at the counter's total, and the total at the end, which
    a final [load()] returns, is the final value of that variable. *)
Theorem sharded_counter_refines_plain_variable
        (os : list op) (s : distributable_counter) :
  mutex_ s = false ->
  admissible (registry s) os = true ->
  exists s',
    run_ops os s = Ok (fst (plain_run os (total s))) s' /\
    load s' = Ok (snd (plain_run os (total s))) s'.
Proof.
  intros Hm Hadm.
  destruct (run_ops_effect os s Hm Hadm) as (s' & E & T & _ & M').
  exists s'. split; [exact E|].
  rewrite (load_unlocked s' M'). now rewrite T.
Qed.

(** X2 (the registry is the set of live brokers): along an admissible
    program started with distinct registered brokers, the registry holds
    exactly the brokers constructed and not yet destroyed, in construction
    order, no address twice, and the mutex is free again at the end. *)
Theorem registry_tracks_live_brokers
        (os : list op) (s : distributable_counter) :
  mutex_ s = false ->
  NoDup (registry s) ->
  admissible (registry s) os = true ->
  exists rs s',
    run_ops os s = Ok rs s' /\
    registry s' = live_after (registry s) os /\
    NoDup (registry s') /\
    mutex_ s' = false.
Proof.
  intros Hm Hnd Hadm.
  destruct (run_ops_effect os s Hm Hadm) as (s' & E & _ & R & M').
  eexists. exists s'. split; [exact E|]. split; [exact R|].
  split; [|exact M']. rewrite R. now apply NoDup_live_after.
Qed.

(** X3 (P4, broker cleanup): destroying each registered broker once, in any
    order, completes, leaves the registry empty and [load()] returning the
    total the counter stood for before; the counter's destructor then
    passes its assertion. *)
Theorem destroying_every_broker_empties_registry
        (addrs : list addr) (s : distributable_counter) :
  mutex_ s = false ->
  NoDup (registry s) ->
  NoDup addrs ->
  (forall a, In a addrs <-> In a (registry s)) ->
  exists s',
    destroy_brokers addrs s = Ok tt s' /\
    brokers_ s' = [] /\
    load s' = Ok (total s) s' /\
    distributable_counter_dtor s' = Ok tt s'.
Proof.
  intros Hm Hnd Hna Hsame.
  destruct (destroy_brokers_effect addrs s Hm Hnd Hna Hsame)
    as (s' & E & B & M' & T).
  exists s'. split; [exact E|]. split; [exact B|].
  split; [rewrite (load_unlocked s' M'); now rewrite T|].
  unfold distributable_counter_dtor, assert_. rewrite B. simpl.
  now destruct NDEBUG.
Qed.

(** X4 (whole life of a counter): construct a counter with [initial], one
    broker at each of distinct addresses, issue any writes through them or
    directly, then destroy the brokers in any order: everything completes,
    the registry is empty, [load()] returns [initial] plus the algebraic sum
    of the amounts modulo 2^w, and the counter's destructor passes. *)
Theorem counter_life_cycle
        (initial : Z) (addrs order : list addr) (cs : list call) :
  NoDup addrs ->
  NoDup order ->
  (forall a, In a order <-> In a addrs) ->
  Forall (targets_within addrs) cs ->
  exists s',
    (construct_brokers addrs ;; run cs ;; destroy_brokers order)
      (distributable_counter_ctor initial) = Ok tt s' /\
    brokers_ s' = [] /\
    load s' = Ok (wrap (initial + algebraic_sum cs)) s' /\
    distributable_counter_dtor s' = Ok tt s'.
Proof.
  intros Hnd Hno Hsame Hall. unfold bind.
  rewrite construct_brokers_unlocked by reflexivity. simpl.
  set (s0 := set_brokers_ _ _).
  assert (R0 : registry s0 = addrs) by apply map_this_fresh.
  assert (T0 : total s0 = wrap initial).
  { unfold total, s0; simpl. now rewrite sum_values_fresh. }
  rewrite <- R0 in Hall.
  destruct (run_effect cs s0 Hall) as (s1 & E1 & M1 & R1 & T1).
  rewrite E1.
  assert (M1' : mutex_ s1 = false) by (rewrite M1; reflexivity).
  rewrite R0 in R1.
  destruct (destroy_brokers_effect order s1 M1') as (s2 & E2 & B2 & M2 & T2).
  - now rewrite R1.
  - exact Hno.
  - intros a. now rewrite R1.
  - exists s2. split; [exact E2|]. split; [exact B2|]. split.
    + rewrite (load_unlocked s2 M2), T2, T1, T0, wrap_idemp_l. reflexivity.
    + unfold distributable_counter_dtor, assert_. rewrite B2. simpl.
      now destruct NDEBUG.
Qed.

(** X5 (the write path takes no lock): while the mutex is held, add and
    subtract on a live broker and on the counter, and the flush of a broker's
    destructor, still complete, without touching the mutex or the registry;
    [load], [exchange], the broker constructor and the removal step of the
    broker destructor are the calls that wait for it. *)
Theorem writes_never_take_the_lock
        (a a' : addr) (b : counter_broker) (amount to : Z)
        (s : distributable_counter) :
  mutex_ s = true ->
  ilist.find a (brokers_ s) = Some b ->
  (exists s', broker_add a amount s = Ok tt s' /\
              mutex_ s' = true /\ registry s' = registry s) /\
  (exists s', broker_sub a amount s = Ok tt s' /\
              mutex_ s' = true /\ registry s' = registry s) /\
  (exists s', counter_add amount s = Ok tt s' /\
              mutex_ s' = true /\ brokers_ s' = brokers_ s) /\
  (exists s', counter_sub amount s = Ok tt s' /\
              mutex_ s' = true /\ brokers_ s' = brokers_ s) /\
  (exists s', counter_broker_dtor_flush a s = Ok tt s' /\
              mutex_ s' = true /\ brokers_ s' = brokers_ s) /\
  load s = Fault WouldBlock /\
  exchange to s = Fault WouldBlock /\
  counter_broker_ctor a' s = Fault WouldBlock /\
  counter_broker_dtor_remove a s = Fault WouldBlock.
Proof.
  intros Hm Hb.
  split; [|split; [|split; [|split; [|split]]]].
  - eexists. split; [apply (broker_add_live a amount s b Hb)|].
    split; [exact Hm|apply map_this_update].
  - eexists. split; [apply (broker_sub_live a amount s b Hb)|].
    split; [exact Hm|apply map_this_update].
  - eexists. split; [apply counter_add_effect|]. split; [exact Hm|reflexivity].
  - eexists. split; [apply counter_sub_effect|]. split; [exact Hm|reflexivity].
  - eexists. split; [apply (counter_broker_dtor_flush_live a s b Hb)|].
    split; [exact Hm|reflexivity].
  - cxx_unfold. rewrite Hm. repeat split.
Qed.

(** X6 (subtract undoes add): on a counter whose cells hold values of
    [Integral], adding an amount and then subtracting it, or the other way
    round, on a live broker or on the counter itself, gives back the very
    same counter object, whatever the amount and however it wraps. *)
Theorem subtract_undoes_add
        (a : addr) (b : counter_broker) (amount : Z)
        (s : distributable_counter) :
  ranged s ->
  ilist.find a (brokers_ s) = Some b ->
  (broker_add a amount ;; broker_sub a amount) s = Ok tt s /\
  (broker_sub a amount ;; broker_add a amount) s = Ok tt s /\
  (counter_add amount ;; counter_sub amount) s = Ok tt s /\
  (counter_sub amount ;; counter_add amount) s = Ok tt s.
Proof.
  intros [Hc Hbs] Hb.
  pose proof (find_Forall _ a _ b Hbs Hb) as Hv. simpl in Hv.
  assert (B1 : forall v, wrap (wrap (v + amount) - amount) = wrap v).
  { intros v. rewrite wrap_sub_idemp_l. f_equal. lia. }
  assert (B2 : forall v, wrap (wrap (v - amount) + amount) = wrap v).
  { intros v. rewrite wrap_idemp_l. f_equal. lia. }
  split; [|split; [|split]].
  - unfold bind. rewrite (broker_add_live a amount s b Hb).
    erewrite broker_sub_live by (simpl; eapply find_update_same; exact Hb).
    unfold set_brokers_; simpl.
    rewrite update_update, B1, (wrap_small _ Hv).
    rewrite (update_same_value a _ b Hb). now destruct s.
  - unfold bind. rewrite (broker_sub_live a amount s b Hb).
    erewrite broker_add_live by (simpl; eapply find_update_same; exact Hb).
    unfold set_brokers_; simpl.
    rewrite update_update, B2, (wrap_small _ Hv).
    rewrite (update_same_value a _ b Hb). now destruct s.
  - cxx_unfold. rewrite B1, (wrap_small _ Hc). now destruct s.
  - cxx_unfold. rewrite B2, (wrap_small _ Hc). now destruct s.
Qed.

(** X7 (cells stay values of [Integral]): an admissible program whose
    [exchange] arguments are values of [Integral], run on a counter whose
    cells all hold values in [0, 2^w), completes and leaves every cell in
    that range; every value a [load()] or [exchange()] hands back is in it
    too. *)
Theorem cells_stay_in_range (os : list op) :
  forall s,
    mutex_ s = false ->
    admissible (registry s) os = true ->
    ranged s ->
    exchanges_ranged os ->
    exists rs s',
      run_ops os s = Ok rs s' /\ ranged s' /\ results_ranged rs.
Proof.
  induction os as [|o os IH]; intros s Hm Hadm Hr Hex; simpl in *.
  - exists [], s. repeat split; try apply Hr. constructor.
  - apply andb_true_iff in Hadm. destruct Hadm as [Ho Hos].
    inversion Hex as [|? ? Harg Hex']; subst.
    destruct (do_op_effect o s Hm Ho) as (s1 & E1 & _ & R1 & M1).
    destruct (do_op_ranged o s Hm Ho Hr Harg _ _ E1) as [Hr1 Hres].
    rewrite <- R1 in Hos.
    destruct (IH s1 M1 Hos Hr1 Hex') as (rs & s2 & E2 & Hr2 & Hrs).
    eexists. exists s2. unfold bind. rewrite E1, E2.
    split; [reflexivity|]. split; [exact Hr2|].
    constructor; assumption.
Qed.

(** X8 (registration order is immaterial to [load]): two counters with the
    same residual whose registries hold the same brokers in different
    orders give the same [load()]. *)
Theorem load_ignores_registration_order (s1 s2 : distributable_counter) :
  mutex_ s1 = false ->
  mutex_ s2 = false ->
  counter_ s1 = counter_ s2 ->
  Permutation (brokers_ s1) (brokers_ s2) ->
  exists v, load s1 = Ok v s1 /\ load s2 = Ok v s2.
Proof.
  intros M1 M2 Hc Hp. exists (total s1).
  split; [apply load_unlocked; exact M1|].
  rewrite (load_unlocked s2 M2). f_equal.
  unfold total. now rewrite Hc, (sum_values_Permutation _ _ Hp).
Qed.

(** ** Threads writing through the wrapper *)

Section Threads.

Variable broker_of : thread -> addr.

Lemma In_remove_first_other (a x : nat) (l : list nat) :
  In x l -> x <> a -> In x (remove_first a l).
Proof.
  induction l as [|y l IH]; simpl; [tauto|].
  intros [H|H] Hne; destruct (Nat.eqb y a) eqn:E; simpl; auto.
  apply Nat.eqb_eq in E. congruence.
Qed.

Lemma local_effect (t : thread) (wd : tls_world) :
  tls_ok broker_of wd ->
  let fresh := if registered_in t (constructed wd) then [] else [t] in
  exists wd1,
    local broker_of t wd = Ok (broker_of t) wd1 /\
    tls_ok broker_of wd1 /\
    In t (constructed wd1) /\
    total (global_ (wrapper wd1)) = total (global_ (wrapper wd)) /\
    constructed wd1 = constructed wd ++ fresh /\
    registry (global_ (wrapper wd1))
    = registry (global_ (wrapper wd)) ++ map broker_of fresh.
Proof.
  intros (Hm & Hnd & Hreg). unfold local.
  destruct (registered_in t (constructed wd)) eqn:E; simpl.
  - exists wd. rewrite !app_nil_r. repeat split; try assumption.
    now apply registered_in_In.
  - unfold on_global.
    rewrite (counter_broker_ctor_unlocked _ _ Hm). eexists.
    split; [reflexivity|]. simpl.
    apply registered_in_not_In in E.
    repeat split; simpl.
    + exact Hm.
    + now apply NoDup_snoc.
    + intros t' Ht'. unfold registry, ilist.push_back; simpl.
      rewrite map_app, in_app_iff. apply in_app_iff in Ht'.
      destruct Ht' as [Ht'|[<-|[]]]; [left; now apply Hreg|right; now left].
    + apply in_app_iff. right. now left.
    + unfold total, ilist.push_back; simpl.
      rewrite sum_values_app; simpl. f_equal. lia.
    + unfold registry, ilist.push_back; simpl. now rewrite map_app.
Qed.

Lemma exec_through_wrapper (c : call) (wd : tls_world) :
  tls_ok broker_of wd ->
  targets_within (registry (global_ (wrapper wd))) c ->
  exists wd',
    on_wrapper (on_global (exec c)) wd = Ok tt wd' /\
    tls_ok broker_of wd' /\
    total (global_ (wrapper wd'))
    = wrap (total (global_ (wrapper wd)) + amount_of c) /\
    constructed wd' = constructed wd /\
    registry (global_ (wrapper wd')) = registry (global_ (wrapper wd)).
Proof.
  intros (Hm & Hnd & Hreg) Ht.
  destruct (exec_effect c _ Ht) as (g & E & M' & R & T).
  exists (mk_world (mk_tls g) (constructed wd)).
  unfold on_wrapper, on_global. rewrite E. simpl.
  repeat split; simpl; try assumption.
  - congruence.
  - intros t Hin. rewrite R. now apply Hreg.
Qed.

Lemma tls_exec_effect (c : tls_call) (wd : tls_world) :
  tls_ok broker_of wd ->
  let fresh :=
    if registered_in (caller c) (constructed wd) then [] else [caller c] in
  exists wd',
    tls_exec broker_of c wd = Ok tt wd' /\
    tls_ok broker_of wd' /\
    total (global_ (wrapper wd'))
    = wrap (total (global_ (wrapper wd)) + tls_amount_of c) /\
    constructed wd' = constructed wd ++ fresh /\
    registry (global_ (wrapper wd'))
    = registry (global_ (wrapper wd)) ++ map broker_of fresh.
Proof.
  intros Hok.
  assert (G : forall t (k : addr -> call),
             (forall a, target (k a) = Some a) ->
             let fresh :=
               if registered_in t (constructed wd) then [] else [t] in
             exists wd',
               (a <- local broker_of t ;;
                on_wrapper (on_global (exec (k a)))) wd = Ok tt wd' /\
               tls_ok broker_of wd' /\
               total (global_ (wrapper wd'))
               = wrap (total (global_ (wrapper wd))
                       + amount_of (k (broker_of t))) /\
               constructed wd' = constructed wd ++ fresh /\
               registry (global_ (wrapper wd'))
               = registry (global_ (wrapper wd)) ++ map broker_of fresh).
  { intros t k Hk fresh.
    destruct (local_effect t wd Hok) as (wd1 & E1 & Ok1 & In1 & T1 & C1 & R1).
    assert (Ht : targets_within (registry (global_ (wrapper wd1)))
                                (k (broker_of t))).
    { unfold targets_within. rewrite Hk. now apply Ok1. }
    destruct (exec_through_wrapper (k (broker_of t)) wd1 Ok1 Ht)
      as (wd2 & E2 & Ok2 & T2 & C2 & R2).
    exists wd2. unfold bind. rewrite E1, E2. unfold fresh.
    split; [reflexivity|]. split; [exact Ok2|].
    split; [now rewrite T2, T1|].
    split; [now rewrite C2, C1|now rewrite R2, R1]. }
  destruct c as [t n|t n|t|t]; simpl.
  - exact (G t (fun a => BrokerAdd a n) (fun _ => eq_refl)).
  - exact (G t (fun a => BrokerSub a n) (fun _ => eq_refl)).
  - exact (G t (fun a => BrokerInc a) (fun _ => eq_refl)).
  - exact (G t (fun a => BrokerDec a) (fun _ => eq_refl)).
Qed.

Lemma tls_run_effect (cs : list tls_call) :
  forall wd,
    tls_ok broker_of wd ->
    exists wd',
      tls_run broker_of cs wd = Ok tt wd' /\
      tls_ok broker_of wd' /\
      total (global_ (wrapper wd'))
      = wrap (total (global_ (wrapper wd)) + tls_sum cs) /\
      constructed wd' = constructed wd ++ newcomers (constructed wd) cs /\
      registry (global_ (wrapper wd'))
      = registry (global_ (wrapper wd))
        ++ map broker_of (newcomers (constructed wd) cs).
Proof.
  induction cs as [|c cs IH]; intros wd Hok; simpl.
  - exists wd. rewrite !app_nil_r. repeat split; try apply Hok.
    unfold total. rewrite Z.add_0_r. unfold wrap.
    now rewrite Z.mod_mod by (pose proof modulus_pos; unfold modulus in *; lia).
  - destruct (tls_exec_effect c wd Hok) as (wd1 & E1 & Ok1 & T1 & C1 & R1).
    destruct (IH wd1 Ok1) as (wd2 & E2 & Ok2 & T2 & C2 & R2).
    exists wd2. unfold bind. rewrite E1.
    split; [exact E2|]. split; [exact Ok2|]. split.
    + rewrite T2, T1, wrap_idemp_l. f_equal. lia.
    + rewrite C2, R2, R1, C1.
      destruct (registered_in (caller c) (constructed wd)); simpl.
      * now rewrite !app_nil_r.
      * rewrite <- !app_assoc. simpl. split; reflexivity.
Qed.

Lemma tls_load_unlocked (wd : tls_world) :
  mutex_ (global_ (wrapper wd)) = false ->
  on_wrapper tls_load wd = Ok (total (global_ (wrapper wd))) wd.
Proof.
  intros Hm. unfold on_wrapper, tls_load, bind, on_global, ret.
  rewrite (load_unlocked _ Hm).
  destruct wd as [[g] cs]. reflexivity.
Qed.

(** X9 (the wrapper counts every write): whatever threads add, subtract,
    increment or decrement through the wrapper, in whatever order, every
    call completes and the wrapper's [load()] afterwards returns what it
    stood for before plus the algebraic sum of the amounts, modulo 2^w. *)
Theorem tls_writes_are_counted (cs : list tls_call) (wd : tls_world) :
  tls_ok broker_of wd ->
  exists wd',
    tls_run broker_of cs wd = Ok tt wd' /\
    tls_ok broker_of wd' /\
    on_wrapper tls_load wd'
    = Ok (wrap (total (global_ (wrapper wd)) + tls_sum cs)) wd'.
Proof.
  intros Hok.
  destruct (tls_run_effect cs wd Hok) as (wd' & E & Ok' & T & _).
  exists wd'. split; [exact E|]. split; [exact Ok'|].
  rewrite (tls_load_unlocked wd' (proj1 Ok')). now rewrite T.
Qed.

(** X10 (one broker per thread, made on first use): after any writes
    through the wrapper, the registry has grown by exactly one broker for
    each thread that wrote for the first time, in the order of their first
    writes, however many writes each thread issued; threads that had a
    broker keep it. *)
Theorem one_broker_per_thread (cs : list tls_call) (wd : tls_world) :
  tls_ok broker_of wd ->
  exists wd',
    tls_run broker_of cs wd = Ok tt wd' /\
    constructed wd' = constructed wd ++ newcomers (constructed wd) cs /\
    NoDup (constructed wd') /\
    registry (global_ (wrapper wd'))
    = registry (global_ (wrapper wd))
      ++ map broker_of (newcomers (constructed wd) cs).
Proof.
  intros Hok.
  destruct (tls_run_effect cs wd Hok) as (wd' & E & Ok' & _ & C & R).
  exists wd'. split; [exact E|]. split; [exact C|].
  split; [apply Ok'|exact R].
Qed.

(** X11 (a thread's end flushes its broker): when a thread that wrote
    through the wrapper ends, its broker is destroyed: the call completes,
    the broker leaves the registry, the other threads keep theirs, and the
    wrapper's [load()] returns the same total as before; for a thread that
    never wrote nothing happens. *)
Theorem thread_exit_flushes (t : thread) (wd : tls_world) :
  (forall t1 t2, broker_of t1 = broker_of t2 -> t1 = t2) ->
  tls_ok broker_of wd ->
  (In t (constructed wd) ->
   exists wd',
     thread_exit broker_of t wd = Ok tt wd' /\
     tls_ok broker_of wd' /\
     constructed wd' = remove_first t (constructed wd) /\
     ~ In t (constructed wd') /\
     registry (global_ (wrapper wd'))
     = remove_first (broker_of t) (registry (global_ (wrapper wd))) /\
     on_wrapper tls_load wd' = Ok (total (global_ (wrapper wd))) wd') /\
  (~ In t (constructed wd) -> thread_exit broker_of t wd = Ok tt wd).
Proof.
  intros Hinj (Hm & Hnd & Hreg). split.
  - intros Hin. unfold thread_exit.
    rewrite (proj2 (registered_in_In t _) Hin).
    destruct (find_registered _ _ (Hreg t Hin)) as [b Hb].
    unfold on_global. rewrite (counter_broker_dtor_live _ _ b Hm Hb).
    eexists. split; [reflexivity|].
    assert (R : registry
                  (mk_counter
                     (wrap (counter_ (global_ (wrapper wd)) + value_ b))
                     (ilist.remove (broker_of t)
                        (brokers_ (global_ (wrapper wd)))) false)
                = remove_first (broker_of t)
                    (registry (global_ (wrapper wd))))
      by apply map_this_remove.
    assert (T : total
                  (mk_counter
                     (wrap (counter_ (global_ (wrapper wd)) + value_ b))
                     (ilist.remove (broker_of t)
                        (brokers_ (global_ (wrapper wd)))) false)
                = total (global_ (wrapper wd))).
    { unfold total; simpl.
      rewrite (sum_values_remove _ _ b Hb), wrap_idemp_r. f_equal. lia. }
    split; [|split; [reflexivity|split; [|split; [exact R|]]]].
    + split; [reflexivity|]. split; simpl.
      * now apply NoDup_remove_first.
      * intros t' Ht'. rewrite R.
        apply (In_remove_first_iff t t' _ Hnd) in Ht'.
        destruct Ht' as [Ht' Hne].
        apply In_remove_first_other; [now apply Hreg|].
        intros Heq. apply Hne. now apply Hinj.
    + simpl. intros H. apply (In_remove_first_iff t t _ Hnd) in H. tauto.
    + rewrite tls_load_unlocked by reflexivity. simpl. now rewrite T.
  - intros Hnot. unfold thread_exit.
    now rewrite (proj2 (registered_in_not_In t _) Hnot).
Qed.

End Threads.

End Counter.

(** ** Destruction of the counter *)

(** C6 (destruction-time check), as the code has it: the condition of the
    destructor's assertion holds exactly when no broker is registered; in a
    build where [assert] is compiled in (NDEBUG not defined) the destructor
    completes exactly when the registry is empty and aborts on the assertion
    when a broker is still registered; in a build with NDEBUG defined the
    assertion is compiled out and the destructor completes whatever the
    registry holds. *)
Theorem dtor_asserts_empty_registry (s : distributable_counter) :
  (ilist.empty (brokers_ s) = true <-> brokers_ s = []) /\
  (distributable_counter_dtor false s = Ok tt s <-> brokers_ s = []) /\
  (brokers_ s <> [] ->
   distributable_counter_dtor false s = Fault AssertionFailed) /\
  distributable_counter_dtor true s = Ok tt s.
Proof.
  unfold distributable_counter_dtor, assert_, ret, raise.
  destruct (brokers_ s) as [|b l]; simpl.
  - repeat split; congruence.
  - repeat split; congruence.
Qed.

(** With NDEBUG defined, destroying the counter of the scenario, whose two
    brokers are still registered, completes: nothing traps. *)
Lemma dtor_silent_when_NDEBUG :
  brokers_ scenario <> [] /\
  distributable_counter_dtor true scenario = Ok tt scenario.
Proof. split; [discriminate|reflexivity]. Qed.

Lemma dtor_asserts_empty_registry_witness :
  brokers_ scenario <> [] /\
  distributable_counter_dtor false scenario = Fault AssertionFailed.
Proof.
  assert (H : brokers_ scenario <> []) by discriminate.
  exact (conj H
           (proj1 (proj2 (proj2 (dtor_asserts_empty_registry scenario))) H)).
Defined.

(** ** The thread-local wrapper *)

(** C3 (wrapper's exchange), evaluated on a 64-bit wrapper whose counter is
    the scenario: [global_.exchange(100)] returns 18 and resets the counter,
    but [tls_distributed_counter::exchange(100)] ends without a [return]
    statement and hands no value back. *)
Theorem tls_exchange_drops_result :
  on_global (exchange 64 100) (mk_tls scenario)
  = Ok 18 (mk_tls (mk_counter 100 [mk_broker 1%nat 0; mk_broker 2%nat 0] false))
  /\
  tls_exchange 64 100 (mk_tls scenario) = Fault MissingReturn.
Proof. split; vm_compute; reflexivity. Qed.

(** ** The example scenarios of the specification, run *)

(** Counter at 0, broker A adds 5, broker B adds 10, a direct add of 3:
    [load()] gives 18, [exchange(100)] gives 18 and the [load()] after it
    gives 100. *)
Example scenario_runs :
  (construct_brokers [1; 2]%nat ;;
   broker_add 64 1%nat 5 ;; broker_add 64 2%nat 10 ;; counter_add 64 3 ;;
   v <- load 64 ;; x <- exchange 64 100 ;; y <- load 64 ;;
   ret (v, x, y)) (distributable_counter_ctor 0)
  = Ok (18, 18, 100)
       (mk_counter 100 [mk_broker 1%nat 0; mk_broker 2%nat 0] false).
Proof. vm_compute. reflexivity. Qed.

(** The state the writes of that scenario lead to is [scenario]. *)
Example scenario_reached :
  (construct_brokers [1; 2]%nat ;;
   broker_add 64 1%nat 5 ;; broker_add 64 2%nat 10 ;; counter_add 64 3)
    (distributable_counter_ctor 0)
  = Ok tt scenario.
Proof. vm_compute. reflexivity. Qed.

(** Wrap-around on an 8-bit counter: 250 + 10 is 4, and 3 - 5 is 254. *)
Example wraparound_8bit :
  counter_add 8 10 (distributable_counter_ctor 250)
  = Ok tt (mk_counter 4 [] false) /\
  counter_sub 8 5 (distributable_counter_ctor 3)
  = Ok tt (mk_counter 254 [] false).
Proof. split; vm_compute; reflexivity. Qed.

(** A second locker of a held mutex gets no further. *)
Example load_blocks_on_held_mutex :
  load 64 (mk_counter 3 [] true) = Fault WouldBlock.
Proof. reflexivity. Qed.

(** ** The properties at work on the scenario, for 64-bit counters *)

Lemma load_after_sharded_writes_witness :
  Forall (targets_within [1; 2]%nat)
         [BrokerAdd 1%nat 5; BrokerAdd 2%nat 10; CounterAdd 3] /\
  exists s',
    (construct_brokers [1; 2]%nat ;;
     run 64 [BrokerAdd 1%nat 5; BrokerAdd 2%nat 10; CounterAdd 3])
      (distributable_counter_ctor 0) = Ok tt s' /\
    load 64 s'
    = Ok (wrap 64 (algebraic_sum
                     [BrokerAdd 1%nat 5; BrokerAdd 2%nat 10; CounterAdd 3])) s'.
Proof.
  assert (H : Forall (targets_within [1; 2]%nat)
                     [BrokerAdd 1%nat 5; BrokerAdd 2%nat 10; CounterAdd 3])
    by (repeat constructor; simpl; auto).
  exact (conj H (load_after_sharded_writes 64 _ _ H)).
Defined.

Lemma in_range_64_100 : in_range 64 100.
Proof. vm_compute. split; [discriminate|reflexivity]. Defined.

Lemma exchange_returns_total_and_resets_witness :
  mutex_ scenario = false /\ in_range 64 100 /\
  exists s',
    exchange 64 100 scenario = Ok (total 64 scenario) s' /\
    load 64 scenario = Ok (total 64 scenario) scenario /\
    total 64 scenario
    = wrap 64 (sum_values (brokers_ scenario) + counter_ scenario) /\
    Forall (fun b => value_ b = 0) (brokers_ s') /\
    registry s' = registry scenario /\
    counter_ s' = 100 /\
    load 64 s' = Ok 100 s'.
Proof.
  exact (conj eq_refl
           (conj in_range_64_100
              (exchange_returns_total_and_resets 64 100 scenario
                 eq_refl in_range_64_100))).
Defined.

Lemma dtor_window_double_counts_witness :
  mutex_ scenario = false /\
  ilist.find 1%nat (brokers_ scenario) = Some (mk_broker 1%nat 5) /\
  exists s1 s2,
    counter_broker_dtor_flush 64 1%nat scenario = Ok tt s1 /\
    counter_broker_dtor_remove 1%nat s1 = Ok tt s2 /\
    counter_broker_dtor 64 1%nat scenario = Ok tt s2 /\
    counter_ s1 = wrap 64 (counter_ scenario + 5) /\
    brokers_ s1 = brokers_ scenario /\
    ilist.find 1%nat (brokers_ s1) = Some (mk_broker 1%nat 5) /\
    load 64 scenario = Ok (total 64 scenario) scenario /\
    load 64 s1 = Ok (wrap 64 (total 64 scenario + 5)) s1 /\
    (exists s1',
        exchange 64 100 s1 = Ok (wrap 64 (total 64 scenario + 5)) s1') /\
    load 64 s2 = Ok (total 64 scenario) s2.
Proof.
  exact (conj eq_refl
           (conj eq_refl
              (dtor_window_double_counts 64 1%nat (mk_broker 1%nat 5) 100
                 scenario eq_refl eq_refl))).
Defined.

Lemma load_observes_only_witness :
  mutex_ scenario = false /\
  exists v,
    load 64 scenario = Ok v scenario /\
    (v1 <- load 64 ;; v2 <- load 64 ;; ret (v1, v2)) scenario
    = Ok (v, v) scenario /\
    exists s', exchange 64 100 scenario = Ok v s' /\
               brokers_ s' = drained (brokers_ scenario).
Proof.
  exact (conj eq_refl (load_observes_only 64 100 scenario eq_refl)).
Defined.

Lemma weak_atomic_refines_fetch_add_witness :
  ilist.find 1%nat (brokers_ scenario) = Some (mk_broker 1%nat 5) /\
  (exists s', broker_add 64 1%nat 7 scenario = Ok tt s' /\
              value_of 1%nat s' = Some ((5 + 7) mod 2 ^ Z.of_nat 64)) /\
  (exists s', broker_sub 64 1%nat 7 scenario = Ok tt s' /\
              value_of 1%nat s' = Some ((5 - 7) mod 2 ^ Z.of_nat 64)).
Proof.
  exact (conj eq_refl
           (proj2 (proj2 (weak_atomic_refines_fetch_add 64 1%nat 7 scenario))
              (mk_broker 1%nat 5) eq_refl)).
Defined.

Lemma brokers_independent_witness :
  1%nat <> 2%nat /\ mutex_ scenario = false /\
  ilist.find 1%nat (brokers_ scenario) = Some (mk_broker 1%nat 5) /\
  (exists s', broker_add 64 1%nat 7 scenario = Ok tt s' /\
              value_of 2%nat s' = value_of 2%nat scenario) /\
  (exists s', broker_sub 64 1%nat 7 scenario = Ok tt s' /\
              value_of 2%nat s' = value_of 2%nat scenario) /\
  (exists s', counter_broker_dtor_flush 64 1%nat scenario = Ok tt s' /\
              value_of 2%nat s' = value_of 2%nat scenario) /\
  (exists s', counter_broker_dtor 64 1%nat scenario = Ok tt s' /\
              value_of 2%nat s' = value_of 2%nat scenario).
Proof.
  assert (H : 1%nat <> 2%nat) by discriminate.
  exact (conj H
           (conj eq_refl
              (conj eq_refl
                 (brokers_independent 64 1%nat 2%nat (mk_broker 1%nat 5) 7
                    scenario H eq_refl eq_refl)))).
Defined.

Lemma construct_then_destroy_is_identity_witness :
  mutex_ scenario = false /\
  ilist.find 3%nat (brokers_ scenario) = None /\
  exists s1 s2,
    counter_broker_ctor 3%nat scenario = Ok tt s1 /\
    value_of 3%nat s1 = Some 0 /\
    counter_broker_dtor 64 3%nat s1 = Ok tt s2 /\
    brokers_ s2 = brokers_ scenario /\
    mutex_ s2 = mutex_ scenario /\
    load 64 scenario = Ok (total 64 scenario) scenario /\
    load 64 s2 = Ok (total 64 scenario) s2.
Proof.
  exact (conj eq_refl
           (conj eq_refl
              (construct_then_destroy_is_identity 64 3%nat scenario
                 eq_refl eq_refl))).
Defined.

(** ** The properties of whole programs at work, for 64-bit counters *)

Lemma ranged_scenario : ranged 64 scenario.
Proof.
  split; [vm_compute; split; [discriminate|reflexivity]|].
  repeat constructor; vm_compute; discriminate.
Defined.

Lemma NoDup_12 : NoDup [1; 2]%nat.
Proof.
  repeat constructor; simpl; intros H; repeat destruct H as [H|H];
    try discriminate H; exact H.
Defined.

Lemma NoDup_21 : NoDup [2; 1]%nat.
Proof.
  repeat constructor; simpl; intros H; repeat destruct H as [H|H];
    try discriminate H; exact H.
Defined.

Lemma same_addresses_21_12 :
  forall a : addr, In a [2; 1]%nat <-> In a [1; 2]%nat.
Proof. intros a. simpl. tauto. Defined.

Lemma tls_ok_scenario_world : tls_ok S scenario_world.
Proof.
  split; [reflexivity|]. split.
  - repeat constructor; simpl; intros H; repeat destruct H as [H|H];
      try discriminate H; exact H.
  - intros t H. simpl in H. destruct H as [<-|[<-|[]]]; simpl; auto.
Defined.

Lemma tls_ok_fresh_wrapper : tls_ok S tls_distributed_counter_ctor.
Proof.
  split; [reflexivity|]. split; [constructor|]. intros t [].
Defined.

Lemma sharded_counter_refines_plain_variable_witness :
  mutex_ scenario = false /\
  admissible (registry scenario) scenario_program = true /\
  exists s',
    run_ops 64 scenario_program scenario
    = Ok [None; None; Some 25; Some 25; None; None; Some 99] s' /\
    load 64 s' = Ok 99 s'.
Proof.
  exact (conj eq_refl
           (conj eq_refl
              (sharded_counter_refines_plain_variable 64 scenario_program
                 scenario eq_refl eq_refl))).
Defined.

Lemma registry_tracks_live_brokers_witness :
  mutex_ scenario = false /\
  NoDup (registry scenario) /\
  admissible (registry scenario) scenario_program = true /\
  exists rs s',
    run_ops 64 scenario_program scenario = Ok rs s' /\
    registry s' = [2; 3]%nat /\
    NoDup (registry s') /\
    mutex_ s' = false.
Proof.
  exact (conj eq_refl
           (conj NoDup_12
              (conj eq_refl
                 (registry_tracks_live_brokers 64 scenario_program scenario
                    eq_refl NoDup_12 eq_refl)))).
Defined.

Lemma destroying_every_broker_empties_registry_witness :
  mutex_ scenario = false /\
  NoDup (registry scenario) /\
  NoDup [2; 1]%nat /\
  (forall a, In a [2; 1]%nat <-> In a (registry scenario)) /\
  exists s',
    destroy_brokers 64 [2; 1]%nat scenario = Ok tt s' /\
    brokers_ s' = [] /\
    load 64 s' = Ok 18 s' /\
    distributable_counter_dtor false s' = Ok tt s'.
Proof.
  exact (conj eq_refl
           (conj NoDup_12
              (conj NoDup_21
                 (conj same_addresses_21_12
                    (destroying_every_broker_empties_registry 64 false
                       [2; 1]%nat scenario eq_refl NoDup_12 NoDup_21
                       same_addresses_21_12))))).
Defined.

Lemma counter_life_cycle_witness :
  NoDup [1; 2]%nat /\ NoDup [2; 1]%nat /\
  (forall a, In a [2; 1]%nat <-> In a [1; 2]%nat) /\
  Forall (targets_within [1; 2]%nat)
         [BrokerAdd 1%nat 5; BrokerSub 2%nat 10; CounterInc] /\
  exists s',
    (construct_brokers [1; 2]%nat ;;
     run 64 [BrokerAdd 1%nat 5; BrokerSub 2%nat 10; CounterInc] ;;
     destroy_brokers 64 [2; 1]%nat) (distributable_counter_ctor 3)
    = Ok tt s' /\
    brokers_ s' = [] /\
    load 64 s' = Ok (wrap 64 (3 + (5 + (- 10 + (1 + 0))))) s' /\
    distributable_counter_dtor false s' = Ok tt s'.
Proof.
  assert (H : Forall (targets_within [1; 2]%nat)
                     [BrokerAdd 1%nat 5; BrokerSub 2%nat 10; CounterInc])
    by (repeat constructor; simpl; auto).
  exact (conj NoDup_12
           (conj NoDup_21
              (conj same_addresses_21_12
                 (conj H
                    (counter_life_cycle 64 false 3 [1; 2]%nat [2; 1]%nat _
                       NoDup_12 NoDup_21 same_addresses_21_12 H))))).
Defined.

Lemma writes_never_take_the_lock_witness :
  mutex_ (set_mutex_ true scenario) = true /\
  ilist.find 1%nat (brokers_ (set_mutex_ true scenario))
  = Some (mk_broker 1%nat 5) /\
  (exists s', broker_add 64 1%nat 7 (set_mutex_ true scenario) = Ok tt s' /\
              mutex_ s' = true /\
              registry s' = registry (set_mutex_ true scenario)) /\
  load 64 (set_mutex_ true scenario) = Fault WouldBlock.
Proof.
  pose (H := writes_never_take_the_lock 64 1%nat 3%nat (mk_broker 1%nat 5)
               7 100 (set_mutex_ true scenario) eq_refl eq_refl).
  exact (conj eq_refl
           (conj eq_refl
              (conj (proj1 H)
                 (proj1 (proj2 (proj2 (proj2 (proj2 (proj2 H))))))))).
Defined.

Lemma subtract_undoes_add_witness :
  ranged 64 scenario /\
  ilist.find 1%nat (brokers_ scenario) = Some (mk_broker 1%nat 5) /\
  (broker_add 64 1%nat 7 ;; broker_sub 64 1%nat 7) scenario
  = Ok tt scenario /\
  (broker_sub 64 1%nat 7 ;; broker_add 64 1%nat 7) scenario
  = Ok tt scenario /\
  (counter_add 64 7 ;; counter_sub 64 7) scenario = Ok tt scenario /\
  (counter_sub 64 7 ;; counter_add 64 7) scenario = Ok tt scenario.
Proof.
  exact (conj ranged_scenario
           (conj eq_refl
              (subtract_undoes_add 64 1%nat (mk_broker 1%nat 5) 7 scenario
                 ranged_scenario eq_refl))).
Defined.

Lemma exchanges_ranged_scenario_program :
  exchanges_ranged 64 scenario_program.
Proof.
  unfold exchanges_ranged, scenario_program.
  repeat (constructor; [first [exact I|exact in_range_64_100]|]).
  constructor.
Defined.

Lemma cells_stay_in_range_witness :
  mutex_ scenario = false /\
  admissible (registry scenario) scenario_program = true /\
  ranged 64 scenario /\
  exchanges_ranged 64 scenario_program /\
  exists rs s',
    run_ops 64 scenario_program scenario = Ok rs s' /\
    ranged 64 s' /\ results_ranged 64 rs.
Proof.
  exact (conj eq_refl
           (conj eq_refl
              (conj ranged_scenario
                 (conj exchanges_ranged_scenario_program
                    (cells_stay_in_range 64 scenario_program scenario
                       eq_refl eq_refl ranged_scenario
                       exchanges_ranged_scenario_program))))).
Defined.

Lemma load_ignores_registration_order_witness :
  mutex_ scenario = false /\ mutex_ scenario_swapped = false /\
  counter_ scenario = counter_ scenario_swapped /\
  Permutation (brokers_ scenario) (brokers_ scenario_swapped) /\
  exists v,
    load 64 scenario = Ok v scenario /\
    load 64 scenario_swapped = Ok v scenario_swapped.
Proof.
  assert (P : Permutation (brokers_ scenario) (brokers_ scenario_swapped))
    by apply perm_swap.
  exact (conj eq_refl
           (conj eq_refl
              (conj eq_refl
                 (conj P
                    (load_ignores_registration_order 64 scenario
                       scenario_swapped eq_refl eq_refl eq_refl P))))).
Defined.

Lemma tls_writes_are_counted_witness :
  tls_ok S tls_distributed_counter_ctor /\
  exists wd',
    tls_run 64 S scenario_tls_calls tls_distributed_counter_ctor
    = Ok tt wd' /\
    tls_ok S wd' /\
    on_wrapper (tls_load 64) wd' = Ok 14 wd'.
Proof.
  exact (conj tls_ok_fresh_wrapper
           (tls_writes_are_counted 64 S scenario_tls_calls
              tls_distributed_counter_ctor tls_ok_fresh_wrapper)).
Defined.

Lemma one_broker_per_thread_witness :
  tls_ok S tls_distributed_counter_ctor /\
  exists wd',
    tls_run 64 S scenario_tls_calls tls_distributed_counter_ctor
    = Ok tt wd' /\
    constructed wd' = [0; 1]%nat /\
    NoDup (constructed wd') /\
    registry (global_ (wrapper wd')) = [1; 2]%nat.
Proof.
  exact (conj tls_ok_fresh_wrapper
           (one_broker_per_thread 64 S scenario_tls_calls
              tls_distributed_counter_ctor tls_ok_fresh_wrapper)).
Defined.

Lemma thread_exit_flushes_witness :
  (forall t1 t2 : thread, S t1 = S t2 -> t1 = t2) /\
  tls_ok S scenario_world /\
  In 0%nat (constructed scenario_world) /\
  exists wd',
    thread_exit 64 S 0%nat scenario_world = Ok tt wd' /\
    tls_ok S wd' /\
    constructed wd' = [1]%nat /\
    ~ In 0%nat (constructed wd') /\
    registry (global_ (wrapper wd')) = [2]%nat /\
    on_wrapper (tls_load 64) wd' = Ok 18 wd'.
Proof.
  assert (I0 : In 0%nat (constructed scenario_world)) by (simpl; auto).
  exact (conj eq_add_S
           (conj tls_ok_scenario_world
              (conj I0
                 (proj1 (thread_exit_flushes 64 S 0%nat scenario_world
                           eq_add_S tls_ok_scenario_world) I0)))).
Defined.
